(** * goqs: the query-string decoder, embedded and verified

    A shallow embedding of the decoder of [github.com/hlouis/goqs]
    (the file that declares [Decoder], [Parse], [parseValues], [parseKeys],
    [merge] and [objToArray]) together with the parts of Go's standard
    library it calls ([strings], [unicode/utf8], [net/url], [strconv],
    [regexp] for the two fixed patterns).

    Conventions.
    - A Go [string] is a sequence of bytes: Rocq's [string].
    - A Go [int] is a [Z]; the decoder does no arithmetic that could wrap.
    - A run-time panic is the outcome [Panic] of the [result] monad.
    - [interface{}] values are the closed type [value]; a [QSType]
      ([map[interface{}]interface{}]) is an association list without
      duplicate keys, in order of first insertion.  Go leaves the visiting
      order of [range] over a map unspecified: where the decoder ranges over
      the flat pairs, the order is an explicit argument ([range_order]). *)

From Stdlib Require Import ZArith Lia Ascii String.
From stdpp Require Import base list strings numbers sorting.

Local Open Scope string_scope.
Local Open Scope list_scope.

(** ** Byte strings *)

Module GoString.

Fixpoint drop (n : nat) (s : string) : string :=
  match n, s with
  | O, _ => s
  | S n', String _ s' => drop n' s'
  | S _, "" => ""
  end.

Fixpoint take (n : nat) (s : string) : string :=
  match n, s with
  | O, _ => ""
  | S n', String c s' => String c (take n' s')
  | S _, "" => ""
  end.

(** [s[i:j]], for [i <= j <= len(s)]. *)
Definition slice (s : string) (i j : nat) : string := take (j - i) (drop i s).

(** [s[i:]], for [i <= len(s)]. *)
Definition slice_from (s : string) (i : nat) : string := drop i s.

(** [strings.HasPrefix]. *)
Fixpoint HasPrefix (s prefix : string) : bool :=
  match prefix with
  | "" => true
  | String p prefix' =>
      match s with
      | "" => false
      | String c s' => if decide (c = p) then HasPrefix s' prefix' else false
      end
  end.

(** Offset of the first occurrence of [substr] in [s]. *)
Fixpoint find (s substr : string) : option nat :=
  if HasPrefix s substr then Some O
  else match s with
       | "" => None
       | String _ s' => S <$> find s' substr
       end.

(** [strings.Index]: [-1] when [substr] does not occur. *)
Definition Index (s substr : string) : Z :=
  match find s substr with
  | Some i => Z.of_nat i
  | None => (-1)%Z
  end.

(** [strings.Contains]. *)
Definition Contains (s substr : string) : bool :=
  bool_decide (0 <= Index s substr)%Z.

(** [strings.Cut], first component. *)
Definition Cut_before (s sep : string) : string :=
  match find s sep with
  | Some i => take i s
  | None => s
  end.

(** [strings.ReplaceAll] for a non-empty [old], which is how the decoder
    calls it; [fuel] bounds the number of bytes still to scan. *)
Fixpoint replace_go (fuel : nat) (s old new : string) : string :=
  match fuel with
  | O => s
  | S fuel' =>
      match s with
      | "" => ""
      | String c s' =>
          if HasPrefix s old
          then new +:+ replace_go fuel' (drop (String.length old) s) old new
          else String c (replace_go fuel' s' old new)
      end
  end.

Definition ReplaceAll (s old new : string) : string :=
  replace_go (String.length s) s old new.

(** [strings.Join]. *)
Fixpoint Join (elems : list string) (sep : string) : string :=
  match elems with
  | [] => ""
  | [x] => x
  | x :: rest => x +:+ sep +:+ Join rest sep
  end.

End GoString.

(** ** [unicode/utf8]: the width of the first encoded rune *)

Module GoUtf8.

Definition byte_in (c : ascii) (lo hi : nat) : bool :=
  (lo <=? nat_of_ascii c)%nat && (nat_of_ascii c <=? hi)%nat.

(** The table [first] of package utf8, as (size, accepted range of the
    second byte); size 1 stands for both ASCII and invalid lead bytes. *)
Definition first (c : ascii) : nat * nat * nat :=
  let b := nat_of_ascii c in
  if (b <? 194)%nat then (1, 0, 0)%nat            (* 00..7F, 80..C1 *)
  else if (b <? 224)%nat then (2, 128, 191)%nat   (* C2..DF *)
  else if (b =? 224)%nat then (3, 160, 191)%nat   (* E0 *)
  else if (b =? 237)%nat then (3, 128, 159)%nat   (* ED *)
  else if (b <? 240)%nat then (3, 128, 191)%nat   (* E1..EC, EE..EF *)
  else if (b =? 240)%nat then (4, 144, 191)%nat   (* F0 *)
  else if (b <? 244)%nat then (4, 128, 191)%nat   (* F1..F3 *)
  else if (b =? 244)%nat then (4, 128, 143)%nat   (* F4 *)
  else (1, 0, 0)%nat.                             (* F5..FF *)

(** The size [utf8.DecodeRuneInString] reports: an ill-formed or
    truncated sequence has size 1. *)
Definition rune_size (s : string) : nat :=
  match s with
  | "" => 0
  | String c0 s1 =>
      let '(sz, lo, hi) := first c0 in
      if (sz =? 1)%nat then 1
      else if (String.length s <? sz)%nat then 1
      else match s1 with
           | "" => 1
           | String c1 s2 =>
               if negb (byte_in c1 lo hi) then 1
               else if (sz <=? 2)%nat then 2
               else match s2 with
                    | "" => 1
                    | String c2 s3 =>
                        if negb (byte_in c2 128 191) then 1
                        else if (sz <=? 3)%nat then 3
                        else match s3 with
                             | "" => 1
                             | String c3 _ =>
                                 if negb (byte_in c3 128 191) then 1 else 4
                             end
                    end
           end
  end.

(** [utf8.RuneCountInString]. *)
Fixpoint count_go (fuel : nat) (s : string) : nat :=
  match fuel with
  | O => O
  | S fuel' =>
      match s with
      | "" => O
      | _ => S (count_go fuel' (GoString.drop (rune_size s) s))
      end
  end.

Definition RuneCountInString (s : string) : nat := count_go (String.length s) s.

End GoUtf8.

(** ** [strings.SplitN], [strings.Split] *)

Module GoSplit.
Import GoString.

(** [explode]: the first [k] runes one by one, then the rest. *)
Fixpoint explode_go (k : nat) (s : string) : list string :=
  match k with
  | O => [s]
  | S k' =>
      let w := GoUtf8.rune_size s in
      take w s :: explode_go k' (drop w s)
  end.

Definition explode (s : string) (n : Z) : list string :=
  let l := Z.of_nat (GoUtf8.RuneCountInString s) in
  let n := if bool_decide (n < 0)%Z || bool_decide (l < n)%Z then l else n in
  if bool_decide (0 < n)%Z then explode_go (Z.to_nat (n - 1)) s else [].

(** The loop of [genSplit]: at most [cuts] cuts, from the left. *)
Fixpoint cut_go (cuts : nat) (s sep : string) : list string :=
  match cuts with
  | O => [s]
  | S cuts' =>
      match find s sep with
      | None => [s]
      | Some m => take m s :: cut_go cuts' (drop (m + String.length sep) s) sep
      end
  end.

(** [strings.SplitN(s, sep, n)]; the [nil] slice of [n = 0] is the empty
    list.  A negative [n] asks for every piece; [n] is capped at
    [len(s) + 1]. *)
Definition SplitN (s sep : string) (n : Z) : list string :=
  if bool_decide (n = 0)%Z then []
  else if bool_decide (sep = "") then explode s n
  else
    let cap := String.length s in
    let cuts := if bool_decide (n < 0)%Z then cap
                else Nat.min (Z.to_nat (n - 1)) cap in
    cut_go cuts s sep.

Definition Split (s sep : string) : list string := SplitN s sep (-1).

End GoSplit.

(** ** [net/url]: [QueryUnescape] *)

Module GoUrl.

Definition ishex (c : ascii) : bool :=
  GoUtf8.byte_in c 48 57 || GoUtf8.byte_in c 97 102 || GoUtf8.byte_in c 65 70.

Definition unhex (c : ascii) : nat :=
  let b := nat_of_ascii c in
  if GoUtf8.byte_in c 48 57 then b - 48
  else if GoUtf8.byte_in c 97 102 then b - 97 + 10
  else if GoUtf8.byte_in c 65 70 then b - 65 + 10
  else 0.

(** [url.QueryUnescape]: [None] is the [EscapeError] of a [%] that is not
    followed by two hexadecimal digits; [+] becomes a space. *)
Fixpoint QueryUnescape (s : string) : option string :=
  match s with
  | "" => Some ""
  | String c s' =>
      if decide (c = "%"%char) then
        match s' with
        | String a (String b rest) =>
            if ishex a && ishex b
            then String (ascii_of_nat (unhex a * 16 + unhex b)) <$> QueryUnescape rest
            else None
        | _ => None
        end
      else if decide (c = "+"%char) then String " "%char <$> QueryUnescape s'
      else String c <$> QueryUnescape s'
  end.

(** [url.QueryEscape]: letters, digits and the marks - _ . ~ are kept, a
    space becomes [+], every other byte becomes [%XY] in upper-case
    hexadecimal. *)
Definition shouldEscape (c : ascii) : bool :=
  negb (GoUtf8.byte_in c 97 122 || GoUtf8.byte_in c 65 90 || GoUtf8.byte_in c 48 57
        || bool_decide (c = "-"%char) || bool_decide (c = "_"%char)
        || bool_decide (c = "."%char) || bool_decide (c = "~"%char)).

Definition upperhex (n : nat) : ascii :=
  match String.get n "0123456789ABCDEF" with
  | Some c => c
  | None => "0"%char
  end.

Definition escapeByte (c : ascii) : string :=
  if shouldEscape c then
    if decide (c = " "%char) then "+"
    else String "%" (String (upperhex (nat_of_ascii c / 16))
                       (String (upperhex (nat_of_ascii c mod 16)) ""))
  else String c "".

Fixpoint QueryEscape (s : string) : string :=
  match s with
  | "" => ""
  | String c s' => escapeByte c +:+ QueryEscape s'
  end.

End GoUrl.

(** ** [strconv.Atoi] *)

Module GoStrconv.

Definition is_digit (c : ascii) : bool := GoUtf8.byte_in c 48 57.

(** Value of a non-empty run of decimal digits. *)
Fixpoint digits (acc : Z) (s : string) : option Z :=
  match s with
  | "" => Some acc
  | String c s' =>
      if is_digit c
      then digits (acc * 10 + Z.of_nat (nat_of_ascii c - 48)) s'
      else None
  end.

Definition unsigned (s : string) : option Z :=
  match s with
  | "" => None
  | _ => digits 0 s
  end.

Definition in_int_range (z : Z) : bool :=
  bool_decide (- 2 ^ 63 <= z)%Z && bool_decide (z < 2 ^ 63)%Z.

(** [strconv.Atoi] on a 64-bit platform: an optional sign, one or more
    decimal digits, and the value in the range of [int]; [None] is a
    syntax or range error. *)
Definition Atoi (s : string) : option Z :=
  let signed :=
    match s with
    | String "-" s' => Z.opp <$> unsigned s'
    | String "+" s' => unsigned s'
    | _ => unsigned s
    end in
  match signed with
  | Some z => if in_int_range z then Some z else None
  | None => None
  end.

End GoStrconv.

(** ** [regexp]: the decoder's two patterns *)

Module GoRegexp.
Import GoString.

Definition is_open (c : ascii) : bool := bool_decide (c = "["%char).
Definition is_close (c : ascii) : bool := bool_decide (c = "]"%char).
Definition is_dot (c : ascii) : bool := bool_decide (c = "."%char).

(** Bytes consumed by [[^[\]]*]] at the head of [s], if it matches. *)
Fixpoint close_len (s : string) : option nat :=
  match s with
  | "" => None
  | String c s' =>
      if is_close c then Some 1
      else if is_open c then None
      else S <$> close_len s'
  end.

(** [bracketReg.FindStringIndex]: start and end offset of the leftmost
    match of [(\[[^[\]]*])]. *)
Fixpoint bracket_find (s : string) : option (nat * nat) :=
  match s with
  | "" => None
  | String c s' =>
      match (if is_open c then close_len s' else None) with
      | Some n => Some (O, S n)
      | None => (fun l => (S l.1, S l.2)) <$> bracket_find s'
      end
  end.

(** [bracketReg.FindAllStringIndex(s, n)] for [n > 0]: the first [n]
    successive matches; [off] is the offset of [s] in the whole key. *)
Fixpoint bracket_find_all (n : nat) (off : nat) (s : string) : list (nat * nat) :=
  match n with
  | O => []
  | S n' =>
      match bracket_find s with
      | None => []
      | Some (i, j) => (off + i, off + j) :: bracket_find_all n' (off + j) (drop j s)
      end
  end.

(** [dotReg.ReplaceAllString(s, "[$1]")] with [dotReg = \.([^.[]+)]:
    a dot followed by a non-empty run of bytes other than [.] and [[]
    becomes the run in brackets.  [inrun] tells that the bytes being read
    belong to such a run. *)
Definition in_class (c : ascii) : bool := negb (is_dot c) && negb (is_open c).

Fixpoint dot_go (inrun : bool) (s : string) : string :=
  match s with
  | "" => if inrun then "]" else ""
  | String c s' =>
      if inrun && in_class c then String c (dot_go true s')
      else
        let starts := is_dot c && match s' with
                                  | String c' _ => in_class c'
                                  | "" => false
                                  end in
        let out := if starts then "[" +:+ dot_go true s'
                   else String c (dot_go false s') in
        if inrun then "]" +:+ out else out
  end.

Definition dot_replace (s : string) : string := dot_go false s.

End GoRegexp.

(** ** Outcomes, dynamic values and maps *)

(** A Go call either returns or panics. *)
Inductive result (A : Type) : Type :=
| Ok (a : A)
| Panic.
Arguments Ok {A} a.
Arguments Panic {A}.

#[global] Instance result_ret : MRet result := @Ok.
#[global] Instance result_bind : MBind result :=
  fun A B f r => match r with Ok a => f a | Panic => Panic end.
#[global] Instance result_fmap : FMap result :=
  fun A B f r => match r with Ok a => Ok (f a) | Panic => Panic end.

(** Values that can be hashed: the dynamic types the decoder ever uses as a
    key of a [QSType]. *)
Inductive scalar : Type :=
| SStr (s : string)
| SInt (i : Z)
| SBool (b : bool).

#[global] Instance scalar_eq_dec : EqDecision scalar.
Proof. solve_decision. Defined.

(** An [interface{}] of the decoder. *)
#[warnings="-register-all"] Inductive value : Type :=
| VNil
| VScalar (s : scalar)
| VSlice (l : list value)
| VMap (m : list (scalar * value)).

Abbreviation VStr s := (VScalar (SStr s)).
Abbreviation VTrue := (VScalar (SBool true)).

(** Go maps as association lists: [map_get] is [m[k]] with its [ok] flag,
    [map_set] is [m[k] = v] (an existing key keeps its place, a new one goes
    last). *)
Section assoc.
Context {K V : Type} `{EqDecision K}.

Fixpoint map_get (k : K) (m : list (K * V)) : option V :=
  match m with
  | [] => None
  | (k', v) :: m' => if decide (k = k') then Some v else map_get k m'
  end.

Fixpoint map_set (k : K) (v : V) (m : list (K * V)) : list (K * V) :=
  match m with
  | [] => [(k, v)]
  | (k', v') :: m' =>
      if decide (k = k') then (k, v) :: m' else (k', v') :: map_set k v m'
  end.

Definition keys (m : list (K * V)) : list K := m.*1.
End assoc.

(** The order in which one [range] over a map visits its entries.  Go
    randomises it; here a [seed] decides: its head (modulo the number of
    entries left) selects the entry visited next. *)
Section range.
Context {A : Type}.

Fixpoint visit (fuel : nat) (seed : list nat) (l : list A) : list A :=
  match fuel with
  | O => []
  | S fuel' =>
      let i := (hd O seed mod length l)%nat in
      match l !! i with
      | Some x => x :: visit fuel' (tl seed) (delete i l)
      | None => []
      end
  end.

Definition range_order (seed : list nat) (l : list A) : list A :=
  visit (length l) seed l.
End range.

(** ** The decoder *)

Module goqs.
Import GoString.
Local Open Scope list_scope.

Definition QSType : Type := list (scalar * value).

Record Decoder : Type := mkDecoder {
  tagAlias : string;
  allowDots : bool;
  allowEmptyArrays : bool;
  allowPrototypes : bool;
  allowSparse : bool;
  arrayLimit : Z;
  charset : string;
  charsetSentinel : bool;
  comma : bool;
  decodeDotInKeys : bool;
  delimiter : string;
  depth : Z;
  duplicates : string;
  ignoreQueryPrefix : bool;
  interpretNumericEntities : bool;
  parameterLimit : Z;
  parseArrays : bool;
  plainObjects : bool;
  strictNullHandling : bool
}.

Definition defaultDecoder : Decoder := {|
  tagAlias := "qs";
  allowDots := false;
  allowEmptyArrays := false;
  allowPrototypes := false;
  allowSparse := false;
  arrayLimit := 20;
  charset := "utf-8";
  charsetSentinel := false;
  comma := false;
  decodeDotInKeys := false;
  delimiter := "&";
  depth := 5;
  duplicates := "combine";
  ignoreQueryPrefix := false;
  interpretNumericEntities := false;
  parameterLimit := 1000;
  parseArrays := true;
  plainObjects := false;
  strictNullHandling := false
|}.

Definition WithComma (b : bool) (d : Decoder) : Decoder :=
  mkDecoder d.(tagAlias) d.(allowDots) d.(allowEmptyArrays) d.(allowPrototypes)
    d.(allowSparse) d.(arrayLimit) d.(charset) d.(charsetSentinel) b
    d.(decodeDotInKeys) d.(delimiter) d.(depth) d.(duplicates)
    d.(ignoreQueryPrefix) d.(interpretNumericEntities) d.(parameterLimit)
    d.(parseArrays) d.(plainObjects) d.(strictNullHandling).

Definition WithAllowDots (b : bool) (d : Decoder) : Decoder :=
  mkDecoder d.(tagAlias) b d.(allowEmptyArrays) d.(allowPrototypes)
    d.(allowSparse) d.(arrayLimit) d.(charset) d.(charsetSentinel) d.(comma)
    d.(decodeDotInKeys) d.(delimiter) d.(depth) d.(duplicates)
    d.(ignoreQueryPrefix) d.(interpretNumericEntities) d.(parameterLimit)
    d.(parseArrays) d.(plainObjects) d.(strictNullHandling).

(** [reflect.TypeOf(v).Kind()]: [TypeOf] of the nil interface is a nil
    [Type], on which [Kind] panics. *)
Inductive Kind : Type := String_ | Int_ | Bool_ | Slice_ | Map_.

#[global] Instance Kind_eq_dec : EqDecision Kind.
Proof. solve_decision. Defined.

Definition kind (v : value) : result Kind :=
  match v with
  | VNil => Panic
  | VScalar (SStr _) => Ok String_
  | VScalar (SInt _) => Ok Int_
  | VScalar (SBool _) => Ok Bool_
  | VSlice _ => Ok Slice_
  | VMap _ => Ok Map_
  end.

(** [v == nil]. *)
Definition is_nil (v : value) : bool :=
  match v with
  | VNil => true
  | _ => false
  end.

Definition IsArrayLike (v : value) : result bool :=
  k ← kind v; Ok (bool_decide (k = Slice_)).

Definition decodeURI (v : string) : string :=
  let v := ReplaceAll v "+" " " in
  match GoUrl.QueryUnescape v with
  | Some ret => ret
  | None => v
  end.

Definition split (str sep : string) : list value :=
  (fun v => VStr v) <$> GoSplit.Split str sep.

Definition combineValue (v1 v2 : value) : result (list value) :=
  isArr1 ← IsArrayLike v1;
  isArr2 ← IsArrayLike v2;
  match v1, v2 with
  | VSlice a1, VSlice a2 => Ok (a1 ++ a2)
  | VSlice a1, _ => Ok (a1 ++ [v2])
  | _, VSlice a2 => Ok (v1 :: a2)
  | _, _ => Ok [v1; v2]
  end.

Fixpoint concat (target : list value) (sources : list value) : result (list value) :=
  match sources with
  | [] => Ok target
  | s :: rest =>
      arr ← IsArrayLike s;
      match s with
      | VSlice ss => concat (target ++ ss) rest
      | _ => concat (target ++ [s]) rest
      end
  end.

Definition arrayToObj (arr : list value) : QSType :=
  imap (fun i v => (SInt (Z.of_nat i), v)) arr.

(** The three loops of [merge]; [rec] is the recursive call. *)
Section merge_loops.
Variable rec : value -> value -> result value.

(** Both slices: [for i, item := range arrS]. *)
Fixpoint mergeBoth (i : nat) (arrT arrS : list value) : result (list value) :=
  match arrS with
  | [] => Ok arrT
  | item :: rest =>
      match arrT !! i with
      | Some ti => x ← rec ti item; mergeBoth (S i) (<[i:=x]> arrT) rest
      | None => mergeBoth (S i) (arrT ++ [item]) rest
      end
  end.

(** A slice into a map: [for i := 0; i < len(arrS); i++]. *)
Fixpoint mergeIndexed (i : nat) (mergeTarget : QSType) (arrS : list value)
    : result QSType :=
  match arrS with
  | [] => Ok mergeTarget
  | item :: rest =>
      let k := SInt (Z.of_nat i) in
      match map_get k mergeTarget with
      | Some tv => x ← rec tv item; mergeIndexed (S i) (map_set k x mergeTarget) rest
      | None => mergeIndexed (S i) (map_set k item mergeTarget) rest
      end
  end.

(** A map into a map: [for k, v := range mapS], in stored order. *)
Fixpoint mergeEntries (mergeTarget : QSType) (mapS : list (scalar * value))
    : result QSType :=
  match mapS with
  | [] => Ok mergeTarget
  | (k, v) :: rest =>
      match map_get k mergeTarget with
      | Some tv => x ← rec tv v; mergeEntries (map_set k x mergeTarget) rest
      | None => mergeEntries (map_set k v mergeTarget) rest
      end
  end.

End merge_loops.

(** [merge] updates a map or slice [target] in place and returns it; the
    embedding returns the updated value.  Where [source] is a map its
    entries are visited in stored order: [Parse] only ever passes sources
    built by [parseKeys], whose maps have one entry. *)
Fixpoint merge (target source : value) {struct source} : result value :=
  match source with
  | VNil => Ok target
  | VScalar s =>
      tk ← kind target;
      match target with
      | VSlice tArr => Ok (VSlice (tArr ++ [source]))
      | VMap tMap =>
          match map_get s tMap with
          | Some _ => Ok (VMap tMap)
          | None => Ok (VMap (map_set s VTrue tMap))
          end
      | _ => Ok (VSlice [target; source])
      end
  | VSlice arrS =>
      tk ← kind target;
      match target with
      | VSlice arrT => VSlice <$> mergeBoth merge O arrT arrS
      | VMap mergeTarget => VMap <$> mergeIndexed merge O mergeTarget arrS
      | _ => VSlice <$> concat [target] [source]
      end
  | VMap mapS =>
      tk ← kind target;
      match target with
      | VSlice tArr => VMap <$> mergeEntries merge (arrayToObj tArr) mapS
      | VMap mergeTarget => VMap <$> mergeEntries merge mergeTarget mapS
      | _ => VSlice <$> concat [target] [source]
      end
  end.

Definition canBeArray (obj : QSType) : bool :=
  forallb (fun i => bool_decide (is_Some (map_get (SInt (Z.of_nat i)) obj)))
          (seq 0 (length obj)).

Definition objToArray (obj : value) : result value :=
  k ← kind obj;
  match obj with
  | VMap oMap =>
      if canBeArray oMap
      then Ok (VSlice ((fun i => default VNil (map_get (SInt (Z.of_nat i)) oMap))
                         <$> seq 0 (length oMap)))
      else Ok obj
  | _ => Ok obj
  end.

(** *** Splitting the input into flat pairs *)

(** The key and the value of one fragment [part]. *)
Definition parsePart (d : Decoder) (part : string) : result (string * value) :=
  let bracketEqualsPos := Index part "]=" in
  let pos := if bool_decide (bracketEqualsPos = -1)%Z
             then Index part "="
             else (bracketEqualsPos + 1)%Z in
  let '(key, val) :=
    if bool_decide (pos = -1)%Z then
      (decodeURI part, if negb d.(strictNullHandling) then VStr "" else VNil)
    else
      let key := decodeURI (slice part 0 (Z.to_nat pos)) in
      let strv := decodeURI (slice_from part (Z.to_nat (pos + 1))) in
      (key, if d.(comma) && Contains strv ","
            then VSlice (split strv ",")
            else VStr strv) in
  wrap ← (if Contains part "[]=" then IsArrayLike val else Ok false);
  Ok (key, if wrap : bool then VSlice [val] else val).

(** [result[key] = ...] at the end of the loop body; [res] is the map
    [result] of the source. *)
Definition storePair (d : Decoder) (res : list (string * value))
    (kv : string * value) : result (list (string * value)) :=
  let '(key, val) := kv in
  match map_get key res with
  | Some ev =>
      if bool_decide (d.(duplicates) = "combine")
      then c ← combineValue ev val; Ok (map_set key (VSlice c) res)
      else Ok (map_set key val res)
  | None => Ok (map_set key val res)
  end.

Fixpoint parseParts (d : Decoder) (parts : list string)
    (res : list (string * value)) : result (list (string * value)) :=
  match parts with
  | [] => Ok res
  | part :: rest =>
      kv ← parsePart d part;
      res ← storePair d res kv;
      parseParts d rest res
  end.

(** The fragments: split on the delimiter, at most [parameterLimit] of
    them, the last one cut at the next delimiter.  [parts[-1]] panics. *)
Definition splitParts (d : Decoder) (str : string) : result (list string) :=
  let parts := GoSplit.SplitN str d.(delimiter) d.(parameterLimit) in
  if bool_decide (Z.of_nat (length parts) = d.(parameterLimit)) then
    let i := (d.(parameterLimit) - 1)%Z in
    if bool_decide (i < 0)%Z then Panic
    else match parts !! Z.to_nat i with
         | Some last => Ok (<[Z.to_nat i := Cut_before last d.(delimiter)]> parts)
         | None => Panic
         end
  else Ok parts.

(** The fragments of the input, after the optional query prefix is
    dropped; [str[0]] panics on the empty string. *)
Definition fragments (d : Decoder) (str : string) : result (list string) :=
  str ← (if d.(ignoreQueryPrefix) then
           match str with
           | "" => Panic
           | String c rest => Ok (if decide (c = "?"%char) then rest else str)
           end
         else Ok str);
  splitParts d str.

Definition parseValues (d : Decoder) (str : string)
    : result (list (string * value)) :=
  parts ← fragments d str;
  parseParts d parts [].

(** *** From one flat key to a single-path value *)

(** The slice [keys]: the parent, up to [depth] bracket groups, and what is
    left of the key as one more group. *)
Definition segments (d : Decoder) (key : string) : list string :=
  let key := if d.(allowDots) then GoRegexp.dot_replace key else key in
  match GoRegexp.bracket_find key with
  | Some loc =>
      if bool_decide (0 < d.(depth))%Z then
        let locs := GoRegexp.bracket_find_all (Z.to_nat d.(depth)) 0 key in
        let lastLoc := List.last locs loc in
        slice key 0 loc.1
          :: ((fun l => slice key l.1 l.2) <$> locs)
          ++ (if bool_decide (Z.of_nat lastLoc.2 < Z.of_nat (String.length key) - 1)%Z
              then ["[" +:+ slice_from key lastLoc.2 +:+ "]"]
              else [])
      else [key]
  | None => [key]
  end.

Definition last_byte (s : string) : option ascii :=
  String.get (String.length s - 1) s.

(** One turn of the loop that wraps [leaf] in the segment [root]. *)
Definition wrapSegment (d : Decoder) (root : string) (leaf : value) : result value :=
  if bool_decide (root = "[]") && d.(parseArrays) then
    if d.(allowEmptyArrays) && is_nil leaf
    then Ok (VSlice [])
    else VSlice <$> concat [] [leaf]
  else
    match root with
    | "" => Panic
    | String c0 _ =>
        let cleanRoot :=
          if bool_decide (c0 = "["%char) && bool_decide (last_byte root = Some "]"%char)
          then slice root 1 (String.length root - 1)
          else root in
        let decodedRoot :=
          if d.(decodeDotInKeys) then ReplaceAll cleanRoot "%2E" "." else cleanRoot in
        let index := GoStrconv.Atoi decodedRoot in
        if negb d.(parseArrays) && bool_decide (decodedRoot = "") then
          Ok (VMap [(SStr "0", leaf)])
        else
          match index with
          | Some index =>
              if bool_decide (root <> decodedRoot) && bool_decide (0 <= index)%Z
                 && (d.(parseArrays) && bool_decide (index <= d.(arrayLimit))%Z)
              then Ok (VMap [(SInt index, leaf)])
              else Ok (VMap [(SStr decodedRoot, leaf)])
          | None => Ok (VMap [(SStr decodedRoot, leaf)])
          end
    end.

(** The loop runs from the last segment to the first. *)
Fixpoint wrapAll (d : Decoder) (keys : list string) (val : value) : result value :=
  match keys with
  | [] => Ok val
  | root :: rest => leaf ← wrapAll d rest val; wrapSegment d root leaf
  end.

(** [leaf.(QSType)] panics when the outermost value is not a map. *)
Definition parseKeys (d : Decoder) (key : string) (val : value) : result QSType :=
  leaf ← wrapAll d (segments d key) val;
  match leaf with
  | VMap temp => Ok temp
  | _ => Panic
  end.

(** *** Parse *)

(** The first loop of [Parse]: every flat pair becomes a single-path value
    that is merged into [t]. *)
Fixpoint mergePairs (d : Decoder) (pairs : list (string * value)) (t : value)
    : result value :=
  match pairs with
  | [] => Ok t
  | (k, v) :: rest =>
      newObj ← parseKeys d k v;
      t ← merge t (VMap newObj);
      mergePairs d rest t
  end.

(** [obj] and [t] are the same Go map all along, since [merge] returns the
    map it was given (lemma [mergePairs_map]): [obj] is read off [t]. *)
Definition mapOf (t : value) : QSType :=
  match t with
  | VMap obj => obj
  | _ => []
  end.

(** The second loop: [ret[k] = objToArray(v)] for the entries of [obj]. *)
Fixpoint convertEntries (obj : QSType) (ret : QSType) : result QSType :=
  match obj with
  | [] => Ok ret
  | (k, v) :: rest => v' ← objToArray v; convertEntries rest (map_set k v' ret)
  end.

(** [Parse]; the returned error is always [nil].  [seed] fixes the order in
    which the range over the flat pairs visits them. *)
Definition Parse (d : Decoder) (input : string) (seed : list nat) : result QSType :=
  if bool_decide (String.length input = 0)%nat then Ok []
  else
    tempObj ← parseValues d input;
    t ← mergePairs d (range_order seed tempObj) (VMap []);
    convertEntries (mapOf t) [].

End goqs.

(** ** The encoder's escaping *)

Module encoder.
Import GoString.

(** The options of the encoder.  The field [serializeDate], a function on
    [time.Time], is left out: none of the functions below reads it. *)
Record Encoder : Type := mkEncoder {
  addQueryPrefix : bool;
  allowDots : bool;
  allowEmptyArrays : bool;
  arrayFormat : string;
  charset : string;
  charsetSentinel : bool;
  delimiter : string;
  encode : bool;
  encodeDotInKeys : bool;
  encodeValuesOnly : bool;
  filter : option (list string);
  format : string;
  skipNulls : bool;
  sort : bool;
  strictNullHandling : bool;
  commaRoundTrip : bool
}.

Definition defaultEncoder : Encoder := {|
  addQueryPrefix := false;
  allowDots := false;
  allowEmptyArrays := false;
  arrayFormat := "indices";
  charset := "utf-8";
  charsetSentinel := false;
  delimiter := "&";
  encode := true;
  encodeDotInKeys := false;
  encodeValuesOnly := false;
  filter := None;
  format := "RFC3986";
  skipNulls := false;
  sort := false;
  strictNullHandling := false;
  commaRoundTrip := false
|}.

Definition WithAddQueryPrefix (b : bool) (e : Encoder) : Encoder :=
  mkEncoder b e.(allowDots) e.(allowEmptyArrays) e.(arrayFormat) e.(charset)
    e.(charsetSentinel) e.(delimiter) e.(encode) e.(encodeDotInKeys)
    e.(encodeValuesOnly) e.(filter) e.(format) e.(skipNulls) e.(sort)
    e.(strictNullHandling) e.(commaRoundTrip).

Definition WithEncode (b : bool) (e : Encoder) : Encoder :=
  mkEncoder e.(addQueryPrefix) e.(allowDots) e.(allowEmptyArrays)
    e.(arrayFormat) e.(charset) e.(charsetSentinel) e.(delimiter) b
    e.(encodeDotInKeys) e.(encodeValuesOnly) e.(filter) e.(format)
    e.(skipNulls) e.(sort) e.(strictNullHandling) e.(commaRoundTrip).

Definition WithFilter (f : list string) (e : Encoder) : Encoder :=
  mkEncoder e.(addQueryPrefix) e.(allowDots) e.(allowEmptyArrays)
    e.(arrayFormat) e.(charset) e.(charsetSentinel) e.(delimiter) e.(encode)
    e.(encodeDotInKeys) e.(encodeValuesOnly) (Some f) e.(format) e.(skipNulls)
    e.(sort) e.(strictNullHandling) e.(commaRoundTrip).

Definition WithFormat (s : string) (e : Encoder) : Encoder :=
  mkEncoder e.(addQueryPrefix) e.(allowDots) e.(allowEmptyArrays)
    e.(arrayFormat) e.(charset) e.(charsetSentinel) e.(delimiter) e.(encode)
    e.(encodeDotInKeys) e.(encodeValuesOnly) e.(filter) s e.(skipNulls)
    e.(sort) e.(strictNullHandling) e.(commaRoundTrip).

Definition WithSkipNulls (b : bool) (e : Encoder) : Encoder :=
  mkEncoder e.(addQueryPrefix) e.(allowDots) e.(allowEmptyArrays)
    e.(arrayFormat) e.(charset) e.(charsetSentinel) e.(delimiter) e.(encode)
    e.(encodeDotInKeys) e.(encodeValuesOnly) e.(filter) e.(format) b e.(sort)
    e.(strictNullHandling) e.(commaRoundTrip).

Definition WithSort (b : bool) (e : Encoder) : Encoder :=
  mkEncoder e.(addQueryPrefix) e.(allowDots) e.(allowEmptyArrays)
    e.(arrayFormat) e.(charset) e.(charsetSentinel) e.(delimiter) e.(encode)
    e.(encodeDotInKeys) e.(encodeValuesOnly) e.(filter) e.(format)
    e.(skipNulls) b e.(strictNullHandling) e.(commaRoundTrip).

Definition WithStrictNullHandlingEncode (b : bool) (e : Encoder) : Encoder :=
  mkEncoder e.(addQueryPrefix) e.(allowDots) e.(allowEmptyArrays)
    e.(arrayFormat) e.(charset) e.(charsetSentinel) e.(delimiter) e.(encode)
    e.(encodeDotInKeys) e.(encodeValuesOnly) e.(filter) e.(format)
    e.(skipNulls) e.(sort) b e.(commaRoundTrip).

Definition urlEncode (e : Encoder) (s : string) : string :=
  let encoded := GoUrl.QueryEscape s in
  if bool_decide (e.(format) = "RFC1738") then encoded
  else ReplaceAll encoded "+" "%20".

Definition encodeValue (e : Encoder) (value : string) : string :=
  if negb e.(encode) then value else urlEncode e value.

Definition buildKey (e : Encoder) (prefix key : string) : string :=
  if bool_decide (prefix = "") then key
  else if e.(allowDots) then
    let encodedKey :=
      if e.(encodeDotInKeys) && e.(encode) then ReplaceAll key "." "%252E"
      else key in
    prefix +:+ "." +:+ encodedKey
  else prefix +:+ "[" +:+ key +:+ "]".

Definition encodeKey (e : Encoder) (key : string) : string :=
  if negb e.(encode) || e.(encodeValuesOnly) then
    if e.(encodeDotInKeys) && negb e.(allowDots)
    then ReplaceAll key "." "%252E"
    else key
  else if e.(encodeDotInKeys) && negb e.(allowDots) then
    urlEncode e (ReplaceAll key "." "%2E")
  else if e.(allowDots) then key
  else urlEncode e key.

(** [stringifyValue] for a value that is nil ([None]) or a string: the
    first branch and the case [reflect.String]. *)
Definition stringifyValue (e : Encoder) (key : string) (value : option string)
    (prefix : string) : list string :=
  match value with
  | None =>
      if e.(strictNullHandling) then [encodeKey e (buildKey e prefix key)]
      else [encodeKey e (buildKey e prefix key) +:+ "="]
  | Some v => [encodeKey e (buildKey e prefix key) +:+ "=" +:+ encodeValue e v]
  end.

(** The map [filtered]: the entries of [obj] under the keys of the filter. *)
Definition filterKeys (filter : list string) (obj : list (string * option string))
    : list (string * option string) :=
  foldl (fun filtered key =>
           match map_get key obj with
           | Some val => map_set key val filtered
           | None => filtered
           end) [] filter.

(** [sort.Strings]: increasing in the order of the bytes. *)
Definition sort_Strings (l : list string) : list string :=
  merge_sort (fun a b : string => String.leb a b) l.

(** The loop over [keys]; [obj[key]] is nil for a key that is missing. *)
Fixpoint stringifyKeys (e : Encoder) (obj : list (string * option string))
    (keys : list string) : list string :=
  match keys with
  | [] => []
  | key :: rest =>
      let value := default None (map_get key obj) in
      if e.(skipNulls) && bool_decide (value = None)
      then stringifyKeys e obj rest
      else stringifyValue e key value "" ++ stringifyKeys e obj rest
  end.

(** [Stringify] of a [map[string]interface{}] whose values are nil or
    strings; the returned error is [nil] for such an input.  [seed] fixes
    the order in which the range over [obj] collects the keys. *)
Definition Stringify (e : Encoder) (obj : list (string * option string))
    (seed : list nat) : string :=
  if bool_decide (length obj = 0)%nat then ""
  else
    let obj := match e.(filter) with
               | Some filter => filterKeys filter obj
               | None => obj
               end in
    let keys := range_order seed (keys obj) in
    let keys := if e.(sort) then sort_Strings keys else keys in
    let parts := (if e.(charsetSentinel) then ["utf8=%E2%9C%93"] else [])
                 ++ stringifyKeys e obj keys in
    if bool_decide (length parts = 0)%nat then ""
    else
      let result := Join parts e.(delimiter) in
      if e.(addQueryPrefix) && negb (bool_decide (result = ""))
      then "?" +:+ result
      else result.

End encoder.

(** ** Vocabulary of the statements *)

Module spec.
Import goqs.
Local Open Scope list_scope.

(** Decoders that differ from the default in one field.  The package has
    no option function for these fields; inside the package a [Decoder]
    literal sets them. *)
Definition setStrictNullHandling (b : bool) (d : Decoder) : Decoder :=
  mkDecoder d.(tagAlias) d.(allowDots) d.(allowEmptyArrays) d.(allowPrototypes)
    d.(allowSparse) d.(arrayLimit) d.(charset) d.(charsetSentinel) d.(comma)
    d.(decodeDotInKeys) d.(delimiter) d.(depth) d.(duplicates)
    d.(ignoreQueryPrefix) d.(interpretNumericEntities) d.(parameterLimit)
    d.(parseArrays) d.(plainObjects) b.

Definition setDuplicates (policy : string) (d : Decoder) : Decoder :=
  mkDecoder d.(tagAlias) d.(allowDots) d.(allowEmptyArrays) d.(allowPrototypes)
    d.(allowSparse) d.(arrayLimit) d.(charset) d.(charsetSentinel) d.(comma)
    d.(decodeDotInKeys) d.(delimiter) d.(depth) policy
    d.(ignoreQueryPrefix) d.(interpretNumericEntities) d.(parameterLimit)
    d.(parseArrays) d.(plainObjects) d.(strictNullHandling).

Definition setParameterLimit (n : Z) (d : Decoder) : Decoder :=
  mkDecoder d.(tagAlias) d.(allowDots) d.(allowEmptyArrays) d.(allowPrototypes)
    d.(allowSparse) d.(arrayLimit) d.(charset) d.(charsetSentinel) d.(comma)
    d.(decodeDotInKeys) d.(delimiter) d.(depth) d.(duplicates)
    d.(ignoreQueryPrefix) d.(interpretNumericEntities) n
    d.(parseArrays) d.(plainObjects) d.(strictNullHandling).

Definition setDepth (n : Z) (d : Decoder) : Decoder :=
  mkDecoder d.(tagAlias) d.(allowDots) d.(allowEmptyArrays) d.(allowPrototypes)
    d.(allowSparse) d.(arrayLimit) d.(charset) d.(charsetSentinel) d.(comma)
    d.(decodeDotInKeys) d.(delimiter) n d.(duplicates)
    d.(ignoreQueryPrefix) d.(interpretNumericEntities) d.(parameterLimit)
    d.(parseArrays) d.(plainObjects) d.(strictNullHandling).

Definition setParseArrays (b : bool) (d : Decoder) : Decoder :=
  mkDecoder d.(tagAlias) d.(allowDots) d.(allowEmptyArrays) d.(allowPrototypes)
    d.(allowSparse) d.(arrayLimit) d.(charset) d.(charsetSentinel) d.(comma)
    d.(decodeDotInKeys) d.(delimiter) d.(depth) d.(duplicates)
    d.(ignoreQueryPrefix) d.(interpretNumericEntities) d.(parameterLimit)
    b d.(plainObjects) d.(strictNullHandling).

(** Equality of two values as Go sees them: maps are compared entry by
    entry, whatever the order in which the entries are stored. *)
Fixpoint same_value (v w : value) {struct v} : bool :=
  match v, w with
  | VNil, VNil => true
  | VScalar s, VScalar s' => bool_decide (s = s')
  | VSlice l, VSlice l' =>
      (fix all2 (l l' : list value) {struct l} : bool :=
         match l, l' with
         | [], [] => true
         | x :: l, y :: l' => same_value x y && all2 l l'
         | _, _ => false
         end) l l'
  | VMap m, VMap m' =>
      bool_decide (length m = length m')
      && (fix each (m : list (scalar * value)) : bool :=
            match m with
            | [] => true
            | (k, x) :: m =>
                match map_get k m' with
                | Some y => same_value x y
                | None => false
                end && each m
            end) m
  | _, _ => false
  end.

(** The value of the last pair with the given key. *)
Definition last_value (key : string) (pairs : list (string * value))
    : option value :=
  map_get key (reverse pairs).

(** [map_free v]: no mapping occurs in [v]. *)
Fixpoint map_free (v : value) : bool :=
  match v with
  | VMap _ => false
  | VSlice l => forallb map_free l
  | _ => true
  end.

(** [one_entry_maps v]: every mapping in [v] has at most one entry, so a
    range over it has one visiting order. *)
Fixpoint one_entry_maps (v : value) : bool :=
  match v with
  | VMap m =>
      bool_decide (length m <= 1)%nat
      && forallb (fun '(_, x) => one_entry_maps x) m
  | VSlice l => forallb one_entry_maps l
  | _ => true
  end.

(** The claim about the policy first, as the specification words it: of
    the pairs read from the fragments, the split result keeps for every
    key the value of the first pair with that key. *)
Definition keeps_first (d : Decoder) : Prop :=
  forall str parts pairs res,
    fragments d str = Ok parts ->
    Forall2 (fun part kv => parsePart d part = Ok kv) parts pairs ->
    parseValues d str = Ok res ->
    forall key, map_get key res = map_get key pairs.

(** [single_path val v]: [v] is [val] wrapped in mappings that each have
    one entry, under a string key. *)
Inductive single_path (val : value) : value -> Prop :=
| path_leaf : single_path val val
| path_step (k : string) (v : value) :
    single_path val v -> single_path val (VMap [(SStr k, v)]).

(** [slice_free v]: no sequence occurs in [v]. *)
Fixpoint slice_free (v : value) : bool :=
  match v with
  | VSlice _ => false
  | VMap m => forallb (fun '(_, x) => slice_free x) m
  | _ => true
  end.

(** The claim about parseArrays, as the specification words it: with
    parseArrays off, what [Parse] returns holds no sequence. *)
Definition no_arrays_without_parseArrays : Prop :=
  forall d input seed ret,
    d.(goqs.parseArrays) = false ->
    Parse d input seed = Ok ret ->
    forallb (fun '(_, x) => slice_free x) ret = true.

(** What the array recognition does to one value [v], giving [v']: a
    mapping that binds every integer 0..n-1, n its number of entries,
    becomes the sequence of the values bound to 0..n-1; anything else
    stays as it is.  The values inside [v] are not looked at. *)
Definition recognised (v v' : value) : Prop :=
  match v with
  | VMap m =>
      if canBeArray m
      then exists l, v' = VSlice l /\ length l = length m /\
             forall i, (i < length m)%nat ->
               map_get (SInt (Z.of_nat i)) m = l !! i
      else v' = v
  | _ => v' = v
  end.

(** [fully_recognised v]: no mapping inside [v], at any depth, binds
    every integer 0..n-1, n its number of entries. *)
Fixpoint fully_recognised (v : value) : bool :=
  match v with
  | VSlice l => forallb fully_recognised l
  | VMap m =>
      negb (canBeArray m) && forallb (fun '(_, x) => fully_recognised x) m
  | _ => true
  end.

(** The claim about the array recognition, as the specification words it:
    in what [Parse] returns the rewriting has been done at every depth. *)
Definition recognised_at_every_depth : Prop :=
  forall d input seed ret,
    Parse d input seed = Ok ret ->
    forallb (fun '(_, x) => fully_recognised x) ret = true.

(** [nil_free v]: the nil value occurs nowhere in [v]. *)
Fixpoint nil_free (v : value) : bool :=
  match v with
  | VNil => false
  | VScalar _ => true
  | VSlice l => forallb nil_free l
  | VMap m => forallb (fun '(_, x) => nil_free x) m
  end.

(** [merges_well s]: merging [s] into a nil-free value completes and gives
    a nil-free value. *)
Definition merges_well (s : value) : Prop :=
  forall t, nil_free t = true ->
    exists r, merge t s = Ok r /\ nil_free r = true.

(** The parent segment of a flat key: the text before its first bracket
    group, or the whole key when it is not cut. *)
Definition parent (d : Decoder) (key : string) : string :=
  hd "" (segments d key).

(** [plus_to new s]: [s] with every byte + replaced by [new]. *)
Fixpoint plus_to (new s : string) : string :=
  match s with
  | "" => ""
  | String c s' =>
      if decide (c = "+"%char) then new +:+ plus_to new s'
      else String c (plus_to new s')
  end.

(** A letter or a digit. *)
Definition plain_byte (c : ascii) : bool :=
  GoUtf8.byte_in c 97 122 || GoUtf8.byte_in c 65 90 || GoUtf8.byte_in c 48 57.

(** [plain s]: [s] is made of letters and digits. *)
Fixpoint plain (s : string) : bool :=
  match s with
  | "" => true
  | String c s' => plain_byte c && plain s'
  end.

(** [has_byte c s]: the byte [c] occurs in [s]. *)
Fixpoint has_byte (c : ascii) (s : string) : bool :=
  match s with
  | "" => false
  | String c' s' => bool_decide (c' = c) || has_byte c s'
  end.

(** The text [k=v] of a flat pair. *)
Definition flat_pair (kv : string * string) : string := kv.1 +:+ "=" +:+ kv.2.

(** The encoder escapes keys and values alike, gives dots no special role,
    writes all the entries and nothing else, and separates them with &. *)
Definition plain_encoder (e : encoder.Encoder) : Prop :=
  encoder.encode e = true /\ encoder.encodeValuesOnly e = false /\
  encoder.encodeDotInKeys e = false /\ encoder.allowDots e = false /\
  encoder.charsetSentinel e = false /\ encoder.filter e = None /\
  encoder.delimiter e = "&".

(** The decoder separates at &, and gives neither commas nor dots a special
    role. *)
Definition plain_decoder (d : goqs.Decoder) : Prop :=
  goqs.delimiter d = "&" /\ goqs.comma d = false /\
  goqs.allowDots d = false /\ goqs.decodeDotInKeys d = false.

(** The fragment the encoder writes for a string under a root key, when
    it escapes both. *)
Definition escaped_pair (e : encoder.Encoder) (kv : string * string) : string :=
  encoder.urlEncode e kv.1 +:+ "=" +:+ encoder.urlEncode e kv.2.

(** [has_close s]: the byte ] occurs in [s]. *)
Fixpoint has_close (s : string) : bool :=
  match s with
  | "" => false
  | String c s' => GoRegexp.is_close c || has_close s'
  end.

(** [no_dot s]: the byte . does not occur in [s]. *)
Fixpoint no_dot (s : string) : bool :=
  match s with
  | "" => true
  | String c s' => negb (GoRegexp.is_dot c) && no_dot s'
  end.

(** [string_keyed m]: every key of [m] is a string. *)
Definition string_keyed (m : QSType) : Prop :=
  Forall (fun k => exists s, k = SStr s) (keys m).

(** The number of mappings and sequences nested in [v]. *)
Fixpoint height (v : value) : nat :=
  match v with
  | VSlice l => S (foldr (fun x h => Nat.max (height x) h) O l)
  | VMap m => S (foldr (fun '(_, x) h => Nat.max (height x) h) O m)
  | _ => O
  end.

(** [key_path P val v]: [v] is [val] under wrappers, each of them a
    mapping of one entry whose key satisfies [P] or a sequence of one
    element; or [v] ends in the empty sequence, which holds no key (it
    stands for a nil value under allowEmptyArrays). *)
Inductive key_path (P : scalar -> Prop) (val : value) : value -> Prop :=
| key_path_leaf : key_path P val val
| key_path_map (k : scalar) (v : value) :
    P k -> key_path P val v -> key_path P val (VMap [(k, v)])
| key_path_slice (v : value) :
    key_path P val v -> key_path P val (VSlice [v])
| key_path_empty : key_path P val (VSlice []).

(** The keys [parseKeys] may use under the decoder [d]. *)
Definition key_allowed (d : Decoder) (k : scalar) : Prop :=
  match k with
  | SStr _ => True
  | SInt i => d.(parseArrays) = true /\ (0 <= i <= d.(arrayLimit))%Z
  | SBool _ => False
  end.

(** The elements a value contributes when duplicates are combined. *)
Definition elems (v : value) : list value :=
  match v with
  | VSlice a => a
  | _ => [v]
  end.

Definition same_result (r r' : result QSType) : bool :=
  match r, r' with
  | Ok m, Ok m' => same_value (VMap m) (VMap m')
  | Panic, Panic => true
  | _, _ => false
  end.

End spec.

(** * Properties *)

(** ** Visiting orders *)

Section range_facts.
Context {A : Type}.
Implicit Types (l : list A) (seed : list nat).

Lemma visit_perm fuel seed l : length l = fuel -> visit fuel seed l ≡ₚ l.
Proof.
  revert seed l. induction fuel as [|fuel IH]; intros seed l Hlen.
  - destruct l; [reflexivity | discriminate].
  - simpl. destruct (l !! _) as [x|] eqn:Hx.
    + etransitivity; [|symmetry; apply (delete_Permutation l _ x Hx)].
      constructor. apply IH. rewrite length_delete by eauto. lia.
    + apply lookup_ge_None in Hx.
      pose proof (Nat.mod_upper_bound (hd O seed) (length l)). lia.
Qed.

(** Every seed visits each entry exactly once. *)
Lemma range_order_perm seed l : range_order seed l ≡ₚ l.
Proof. by apply visit_perm. Qed.

(** Every visiting order is the order of some seed. *)
Lemma range_order_complete l l' : l' ≡ₚ l -> exists seed, range_order seed l = l'.
Proof.
  revert l. induction l' as [|x l' IH]; intros l Hp.
  - apply Permutation_nil in Hp as ->. by exists [].
  - assert (x ∈ l) as Hin by (rewrite <- Hp; left).
    apply list_elem_of_lookup in Hin as [i Hi].
    pose proof (lookup_lt_Some _ _ _ Hi) as Hlt.
    destruct (IH (delete i l)) as [seed Hseed].
    { apply (Permutation_cons_inv (a := x)).
      etransitivity; [exact Hp | apply (delete_Permutation l i x Hi)]. }
    exists (i :: seed). unfold range_order in *.
    rewrite length_delete in Hseed by eauto.
    destruct (length l) as [|n] eqn:Hn; [lia|].
    cbn [visit hd tl]. rewrite Hn, Nat.mod_small by done. rewrite Hi.
    f_equal. rewrite <- Hseed. f_equal. lia.
Qed.

Lemma range_order_singleton seed (x : A) : range_order seed [x] = [x].
Proof.
  unfold range_order. cbn [visit length]. by rewrite Nat.mod_1_r.
Qed.

Lemma range_order_pair seed (x y : A) :
  range_order seed [x; y] = [x; y] \/ range_order seed [x; y] = [y; x].
Proof.
  pose proof (range_order_perm seed [x; y]) as Hp.
  symmetry in Hp. by apply Permutation_length_2_inv in Hp.
Qed.

End range_facts.

(** ** The outcome monad *)

Lemma bind_Ok {A B} (r : result A) (f : A -> result B) (b : B) :
  r ≫= f = Ok b <-> exists a, r = Ok a /\ f a = Ok b.
Proof.
  destruct r as [a|]; simpl; [|split; [done | by intros (? & ? & _)]].
  split; [by exists a | by intros (? & [= <-] & ?)].
Qed.

Lemma fmap_Ok {A B} (r : result A) (f : A -> B) (b : B) :
  f <$> r = Ok b <-> exists a, r = Ok a /\ b = f a.
Proof.
  destruct r as [a|]; simpl; [|split; [done | by intros (? & ? & _)]].
  split; [intros [= <-]; by exists a | by intros (? & [= <-] & ->)].
Qed.

(** ** Association lists *)

Section assoc_facts.
Context {K V : Type} `{EqDecision K}.
Implicit Types (m : list (K * V)) (k : K) (v : V).

Lemma map_get_set k k' v m :
  map_get k (map_set k' v m) = if decide (k = k') then Some v else map_get k m.
Proof.
  induction m as [|[k0 v0] m IH]; simpl.
  - by destruct (decide (k = k')).
  - destruct (decide (k' = k0)) as [->|Hne]; simpl.
    + by destruct (decide (k = k0)).
    + destruct (decide (k = k0)) as [->|]; [|done].
      by destruct (decide (k0 = k')) as [->|].
Qed.

Lemma map_get_app k m m' :
  map_get k (m ++ m') =
    match map_get k m with Some v => Some v | None => map_get k m' end.
Proof.
  induction m as [|[k0 v0] m IH]; simpl; [done|].
  by destruct (decide (k = k0)).
Qed.

Lemma map_get_None k m : map_get k m = None <-> k ∉ keys m.
Proof.
  unfold keys. induction m as [|[k0 v0] m IH]; csimpl.
  - split; [intros _; apply not_elem_of_nil | done].
  - rewrite not_elem_of_cons. destruct (decide (k = k0)) as [->|Hne].
    + split; [done | by intros [? _]].
    + rewrite IH. split; [by intros ? | by intros [_ ?]].
Qed.

Lemma map_get_Some_keys k v m : map_get k m = Some v -> k ∈ keys m.
Proof.
  intros Hget. destruct (decide (k ∈ keys m)) as [|Hn]; [done|].
  apply map_get_None in Hn. congruence.
Qed.

Lemma map_set_fresh k v m : map_get k m = None -> map_set k v m = m ++ [(k, v)].
Proof.
  induction m as [|[k0 v0] m IH]; simpl; [done|].
  destruct (decide (k = k0)); [done|]. intros Hn. by rewrite IH.
Qed.

Lemma keys_map_set k v m :
  keys (map_set k v m) =
    match map_get k m with Some _ => keys m | None => keys m ++ [k] end.
Proof.
  unfold keys. induction m as [|[k0 v0] m IH]; csimpl; [done|].
  destruct (decide (k = k0)) as [->|]; csimpl; [done|].
  rewrite IH. by destruct (map_get k m).
Qed.

Lemma NoDup_keys_map_set k v m : NoDup (keys m) -> NoDup (keys (map_set k v m)).
Proof.
  intros Hnd. rewrite keys_map_set. destruct (map_get k m) eqn:Hget; [done|].
  apply list.NoDup_app. split_and!; [done| |apply NoDup_singleton].
  intros x Hx ->%list_elem_of_singleton. by apply map_get_None in Hget.
Qed.

End assoc_facts.

(** ** The merge engine *)

Module merge_facts.
Import goqs spec.
Local Open Scope list_scope.

(** C10: merging a scalar into a mapping returns the mapping with one more
    entry at most.  Every key the mapping had keeps its value, and the
    scalar, when it was not a key yet, is bound to true. *)
Theorem merge_map_scalar (m : QSType) (s : scalar) :
  exists m',
    merge (VMap m) (VScalar s) = Ok (VMap m') /\
    (forall k, map_get k m' =
       match map_get k m with
       | Some v => Some v
       | None => if decide (k = s) then Some VTrue else None
       end) /\
    merge (VMap [(SStr "b", VStr "c")]) (VStr "d")
      = Ok (VMap [(SStr "b", VStr "c"); (SStr "d", VTrue)]).
Proof.
  cbn [merge kind mbind result_bind].
  destruct (map_get s m) as [v|] eqn:Hs.
  - exists m. split_and!; [done| |done].
    intros k. destruct (map_get k m) eqn:Hk; [done|].
    destruct (decide (k = s)) as [->|]; [congruence|done].
  - exists (map_set s VTrue m). split_and!; [done| |done].
    intros k. rewrite map_get_set.
    destruct (decide (k = s)) as [->|]; [by rewrite Hs|].
    by destruct (map_get k m).
Qed.

(** A map merged into a map gives a map: in [Parse] the variables [t] and
    [obj] never come apart. *)
Lemma mergeEntries_NoDup rec (m : QSType) mapS m' :
  mergeEntries rec m mapS = Ok m' -> NoDup (keys m) -> NoDup (keys m').
Proof.
  revert m. induction mapS as [|[k v] mapS IH]; intros m; simpl.
  - by intros [= <-].
  - destruct (map_get k m) as [tv|].
    + destruct (rec tv v) as [x|]; simpl; [|done].
      intros Hm Hnd. eapply IH; [done|]. by apply NoDup_keys_map_set.
    + intros Hm Hnd. eapply IH; [done|]. by apply NoDup_keys_map_set.
Qed.

Lemma merge_map_map (m mapS : QSType) t :
  merge (VMap m) (VMap mapS) = Ok t ->
  exists m', t = VMap m' /\ (NoDup (keys m) -> NoDup (keys m')).
Proof.
  cbn [merge kind mbind result_bind].
  destruct (mergeEntries merge m mapS) as [m'|] eqn:Hm; simpl; [|done].
  intros [= <-]. exists m'. split; [done|]. by eapply mergeEntries_NoDup.
Qed.

Lemma mergePairs_map d pairs (m : QSType) t :
  mergePairs d pairs (VMap m) = Ok t ->
  exists obj, t = VMap obj /\ (NoDup (keys m) -> NoDup (keys obj)).
Proof.
  revert m. induction pairs as [|[k v] pairs IH]; intros m; cbn [mergePairs].
  - intros [= <-]. by exists m.
  - intros (newObj & _ & (t' & Hm & Hrest)%bind_Ok)%bind_Ok.
    apply merge_map_map in Hm as (m' & -> & Hnd).
    apply IH in Hrest as (obj & -> & Hnd'). exists obj. split; [done|]. auto.
Qed.

End merge_facts.

(** ** The value splitter *)

Module parseValues_facts.
Import GoString goqs spec.

Lemma drop_nil n : drop n "" = "".
Proof. by destruct n. Qed.

Lemma find_Some s substr i :
  find s substr = Some i -> HasPrefix (drop i s) substr = true.
Proof.
  revert i. induction s as [|c s IH]; intros i; cbn [find].
  - destruct (HasPrefix "" substr) eqn:Hp; [|done]. by intros [= <-].
  - destruct (HasPrefix (String c s) substr) eqn:Hp; [by intros [= <-]|].
    destruct (find s substr) as [j|]; [|done].
    intros [= <-]. by apply IH.
Qed.

Lemma find_None s substr i :
  find s substr = None -> HasPrefix (drop i s) substr = false.
Proof.
  revert i. induction s as [|c s IH]; intros i; cbn [find].
  - rewrite drop_nil. by destruct (HasPrefix "" substr).
  - destruct (HasPrefix (String c s) substr) eqn:Hp; [done|].
    destruct (find s substr) as [j|] eqn:Hf; [done|]. intros _.
    destruct i as [|i]; [done|]. by apply IH.
Qed.

Lemma HasPrefix_tail s c substr :
  HasPrefix s (String c substr) = true -> HasPrefix (drop 1 s) substr = true.
Proof.
  destruct s as [|c' s]; cbn [HasPrefix]; [done|].
  by destruct (decide (c' = c)).
Qed.

Lemma drop_S n s : drop 1 (drop n s) = drop (S n) s.
Proof.
  revert s. induction n as [|n IH]; intros s.
  - by destruct s.
  - destruct s as [|c s]; [done|]. apply IH.
Qed.

(** A fragment that contains []= has a ]= to split at. *)
Lemma Contains_self_array part :
  Contains part "[]=" = true -> exists i, Index part "]=" = Z.of_nat i.
Proof.
  unfold Contains, Index. destruct (find part "[]=") as [i|] eqn:Hi.
  - intros _. apply find_Some, HasPrefix_tail in Hi. rewrite drop_S in Hi.
    destruct (find part "]=") as [j|] eqn:Hj; [by exists j|].
    apply (find_None _ _ (S i)) in Hj. congruence.
  - by intros ?%bool_decide_eq_true.
Qed.

(** Reading one fragment never panics: the kind of a nil value is not
    asked for, since a fragment with []= has a value. *)
Lemma parsePart_total d part : exists kv, parsePart d part = Ok kv.
Proof.
  unfold parsePart. destruct (Contains part "[]=") eqn:Hc.
  - destruct (Contains_self_array part Hc) as [i ->].
    rewrite (bool_decide_eq_false_2 (Z.of_nat i = -1)%Z) by lia.
    rewrite (bool_decide_eq_false_2 (Z.of_nat i + 1 = -1)%Z) by lia.
    destruct (comma d && _); eexists; reflexivity.
  - destruct (if bool_decide _ then _ else _) as [key val].
    eexists; reflexivity.
Qed.

Lemma storePair_overwrites d res key val :
  d.(duplicates) <> "combine" ->
  storePair d res (key, val) = Ok (map_set key val res).
Proof.
  intros Hd. unfold storePair. destruct (map_get key res); [|done].
  by rewrite bool_decide_eq_false_2.
Qed.

Lemma last_value_snoc key pairs kv :
  last_value key (kv :: pairs) =
    match last_value key pairs with
    | Some v => Some v
    | None => if decide (key = kv.1) then Some kv.2 else None
    end.
Proof.
  unfold last_value. rewrite reverse_cons, map_get_app.
  destruct (map_get key (reverse pairs)); [done|]. by destruct kv.
Qed.

Lemma parseParts_overwrites d parts res :
  d.(duplicates) <> "combine" ->
  exists pairs res',
    Forall2 (fun part kv => parsePart d part = Ok kv) parts pairs /\
    parseParts d parts res = Ok res' /\
    forall key, map_get key res' =
      match last_value key pairs with
      | Some v => Some v
      | None => map_get key res
      end.
Proof.
  intros Hd. revert res. induction parts as [|part parts IH]; intros res.
  - exists [], res. split_and!; [constructor|done|done].
  - destruct (parsePart_total d part) as [[key val] Hkv].
    destruct (IH (map_set key val res)) as (pairs & res' & Hall & Hres & Hget).
    exists ((key, val) :: pairs), res'. split_and!.
    + by constructor.
    + cbn [parseParts]. rewrite Hkv. cbn [mbind result_bind].
      by rewrite storePair_overwrites.
    + intros k. rewrite Hget, last_value_snoc, map_get_set. cbn [fst snd].
      destruct (last_value k pairs); [done|]. by destruct (decide (k = key)).
Qed.

(** C6, as amended: under the policy first, as under every policy other
    than combine, the split result binds each flat key to the value of
    its last occurrence; earlier occurrences are overwritten. *)
Theorem duplicates_first_keeps_last d str parts :
  d.(duplicates) <> "combine" ->
  fragments d str = Ok parts ->
  exists pairs res,
    Forall2 (fun part kv => parsePart d part = Ok kv) parts pairs /\
    parseValues d str = Ok res /\
    forall key, map_get key res = last_value key pairs.
Proof.
  intros Hd Hparts.
  destruct (parseParts_overwrites d parts [] Hd) as (pairs & res & ? & Hres & Hget).
  exists pairs, res. split_and!; [done| |].
  - unfold parseValues. by rewrite Hparts.
  - intros key. rewrite Hget. by destruct (last_value key pairs).
Qed.

(** The theorem at the policy first and the input a=1&a=2. *)
Lemma duplicates_first_keeps_last_witness :
  exists pairs res,
    Forall2 (fun part kv =>
               parsePart (setDuplicates "first" defaultDecoder) part = Ok kv)
            ["a=1"; "a=2"] pairs /\
    parseValues (setDuplicates "first" defaultDecoder) "a=1&a=2" = Ok res /\
    forall key, map_get key res = last_value key pairs.
Proof.
  apply (duplicates_first_keeps_last (setDuplicates "first" defaultDecoder)
           "a=1&a=2" ["a=1"; "a=2"]).
  - vm_compute. discriminate.
  - vm_compute. reflexivity.
Defined.

(** C6, as stated, fails: on a=1&a=2 the policy first keeps 2, the value
    of the second occurrence. *)
Lemma duplicates_first_counterexample :
  parseValues (setDuplicates "first" defaultDecoder) "a=1&a=2"
    = Ok [("a", VStr "2")] /\
  ~ keeps_first (setDuplicates "first" defaultDecoder).
Proof.
  split; [vm_compute; reflexivity|]. intros Hclaim.
  specialize (Hclaim "a=1&a=2" ["a=1"; "a=2"]
                [("a", VStr "1"); ("a", VStr "2")] [("a", VStr "2")]).
  assert (fragments (setDuplicates "first" defaultDecoder) "a=1&a=2"
            = Ok ["a=1"; "a=2"]) as Hparts by (vm_compute; reflexivity).
  assert (parseValues (setDuplicates "first" defaultDecoder) "a=1&a=2"
            = Ok [("a", VStr "2")]) as Hres by (vm_compute; reflexivity).
  specialize (Hclaim Hparts).
  specialize (Hclaim ltac:(repeat constructor) Hres "a").
  vm_compute in Hclaim. discriminate Hclaim.
Qed.

End parseValues_facts.

(** ** The sources of [merge] in [Parse] have one-entry maps *)

Module adequacy.
Import GoString goqs spec.

Lemma map_free_strings (l : list string) :
  forallb map_free ((fun v => VStr v) <$> l) = true.
Proof. by induction l. Qed.

Lemma parsePart_map_free d part key val :
  parsePart d part = Ok (key, val) -> map_free val = true.
Proof.
  unfold parsePart.
  destruct (if bool_decide _ then _ else _) as [key' val'] eqn:Hkv.
  assert (map_free val' = true) as Hval'.
  { destruct (bool_decide _).
    - injection Hkv as _ <-. by destruct (negb _).
    - injection Hkv as _ <-. destruct (comma d && _); [|done].
      apply map_free_strings. }
  intros (wrap & _ & [= _ <-])%bind_Ok.
  destruct wrap; [|done]. cbn. by rewrite Hval'.
Qed.

Lemma combineValue_map_free v1 v2 c :
  map_free v1 = true -> map_free v2 = true ->
  combineValue v1 v2 = Ok c -> forallb map_free c = true.
Proof.
  intros H1 H2. unfold combineValue.
  intros (isArr1 & _ & (isArr2 & _ & Hc)%bind_Ok)%bind_Ok.
  destruct v1 as [|s1|a1|m1], v2 as [|s2|a2|m2];
    injection Hc as <-; cbn in *; rewrite ?forallb_app; cbn;
    rewrite ?H1, ?H2; done.
Qed.

Lemma map_set_values {K V} `{EqDecision K} (P : V -> Prop) (k : K) v
    (m : list (K * V)) :
  P v -> Forall (fun kv => P kv.2) m -> Forall (fun kv => P kv.2) (map_set k v m).
Proof.
  intros Hv. induction 1 as [|[k' v'] m Hkv Hm IH]; cbn [map_set].
  - by repeat constructor.
  - destruct (decide (k = k')); constructor; done.
Qed.

Lemma map_get_values {K V} `{EqDecision K} (P : V -> Prop) (k : K) v
    (m : list (K * V)) :
  Forall (fun kv => P kv.2) m -> map_get k m = Some v -> P v.
Proof.
  induction 1 as [|[k' v'] m Hkv Hm IH]; cbn [map_get]; [done|].
  destruct (decide (k = k')); [by intros [= <-]|done].
Qed.

(** The value splitter produces strings, nil and sequences of them. *)
Lemma parseParts_map_free d parts res res' :
  Forall (fun kv => map_free kv.2 = true) res ->
  parseParts d parts res = Ok res' ->
  Forall (fun kv => map_free kv.2 = true) res'.
Proof.
  revert res. induction parts as [|part parts IH]; intros res Hres;
    cbn [parseParts].
  - by intros [= <-].
  - intros ([key val] & Hkv%parsePart_map_free & (res1 & Hst & Hrest)%bind_Ok)%bind_Ok.
    apply (IH res1); [|done]. unfold storePair in Hst.
    destruct (map_get key res) as [ev|] eqn:Hev.
    + destruct (bool_decide _).
      * apply bind_Ok in Hst as (c & Hc & [= <-]).
        apply (map_set_values (fun v => map_free v = true)); [|done].
        eapply combineValue_map_free; [|done..].
        by eapply (map_get_values (fun v => map_free v = true)).
      * injection Hst as <-.
        by apply (map_set_values (fun v => map_free v = true)).
    + injection Hst as <-.
      by apply (map_set_values (fun v => map_free v = true)).
Qed.

Lemma parseValues_map_free d str res :
  parseValues d str = Ok res -> Forall (fun kv => map_free kv.2 = true) res.
Proof.
  unfold parseValues. intros (parts & _ & Hres)%bind_Ok.
  by eapply parseParts_map_free.
Qed.

Lemma map_free_one_entry l :
  forallb map_free l = true -> forallb one_entry_maps l = true.
Proof.
  induction l as [|v l IH]; [done|]. cbn [forallb].
  intros [Hv Hl]%andb_prop. rewrite IH by done.
  assert (forall w, map_free w = true -> one_entry_maps w = true) as Hall.
  { fix Hrec 1. intros [|s|l'|m]; cbn [map_free one_entry_maps]; [done..| |done].
    induction l' as [|w l' IH']; [done|]. cbn [forallb].
    intros [Hw Hl']%andb_prop. by rewrite (Hrec w Hw), IH'. }
  by rewrite Hall.
Qed.

Lemma map_free_one_entry_value v : map_free v = true -> one_entry_maps v = true.
Proof.
  intros Hv. pose proof (map_free_one_entry [v]) as H. cbn in H.
  rewrite Hv in H. specialize (H eq_refl). by apply andb_prop in H as [? _].
Qed.

Lemma wrapSegment_one_entry d root leaf v :
  one_entry_maps leaf = true ->
  wrapSegment d root leaf = Ok v -> one_entry_maps v = true.
Proof.
  intros Hleaf. unfold wrapSegment.
  assert (forall k, one_entry_maps (VMap [(k, leaf)]) = true) as Hwrap.
  { intros k.
    change (one_entry_maps (VMap [(k, leaf)]))
      with (true && (one_entry_maps leaf && true)).
    by rewrite Hleaf. }
  destruct (bool_decide (root = "[]") && parseArrays d).
  - destruct (allowEmptyArrays d && is_nil leaf); [by intros [= <-]|].
    intros (l & Hl & ->)%fmap_Ok.
    destruct leaf as [|[]|l0|m]; cbn in Hl; [done|injection Hl as <-..];
      [done..|].
    change (one_entry_maps (VSlice [VMap m]))
      with (one_entry_maps (VMap m) && true).
    by rewrite Hleaf.
  - destruct root as [|c0 root']; [done|].
    destruct (negb (parseArrays d) && _); [by intros [= <-]|].
    destruct (GoStrconv.Atoi _); [|by intros [= <-]].
    destruct (_ && _); by intros [= <-].
Qed.

Lemma wrapAll_one_entry d keys val v :
  one_entry_maps val = true ->
  wrapAll d keys val = Ok v -> one_entry_maps v = true.
Proof.
  intros Hval. revert v. induction keys as [|root keys IH]; intros v;
    cbn [wrapAll].
  - by intros [= <-].
  - intros (leaf & Hleaf%IH & Hv)%bind_Ok. by eapply wrapSegment_one_entry.
Qed.

(** Every flat pair of [parseValues] gives [merge] a source in which each
    map has one entry: the stored order is the only order in which
    [mergeEntries] can visit it. *)
Lemma parseKeys_one_entry d str res key val newObj :
  parseValues d str = Ok res ->
  (key, val) ∈ res ->
  parseKeys d key val = Ok newObj ->
  one_entry_maps (VMap newObj) = true.
Proof.
  intros Hres%parseValues_map_free Hin. unfold parseKeys.
  rewrite list.Forall_forall in Hres. specialize (Hres _ Hin). cbn in Hres.
  intros (leaf & Hleaf & Hm)%bind_Ok.
  destruct leaf as [|s|l|m]; [done..|]. injection Hm as <-.
  eapply wrapAll_one_entry; [|done]. by apply map_free_one_entry_value.
Qed.

Lemma one_entry_order (m m' : QSType) :
  (length m <= 1)%nat -> m' ≡ₚ m -> m' = m.
Proof.
  destruct m as [|e [|e' m]]; cbn; intros Hlen Hp; [| |lia].
  - by apply Permutation_nil_r in Hp.
  - by apply Permutation_singleton_r in Hp.
Qed.

End adequacy.

(** ** The key-path parser *)

Module parseKeys_facts.
Import goqs spec.

Lemma segments_cons d key : exists root rest, segments d key = root :: rest.
Proof.
  unfold segments. destruct (GoRegexp.bracket_find _); [|eexists _, _; reflexivity].
  destruct (bool_decide _); eexists _, _; reflexivity.
Qed.

(** Without parseArrays a segment is always turned into a mapping with one
    string key; the only failure is the byte test on an empty segment. *)
Lemma wrapSegment_no_arrays d root leaf :
  d.(parseArrays) = false ->
  root <> "" ->
  exists k, wrapSegment d root leaf = Ok (VMap [(SStr k, leaf)]).
Proof.
  intros Hpa Hne. unfold wrapSegment. rewrite Hpa, andb_false_r.
  destruct root as [|c0 root']; [done|]. cbn [negb andb].
  destruct (bool_decide (_ = "")); [eexists; reflexivity|].
  destruct (GoStrconv.Atoi _); [|eexists; reflexivity].
  rewrite andb_false_r. eexists; reflexivity.
Qed.

Lemma wrapSegment_empty_brackets d leaf :
  d.(parseArrays) = false ->
  wrapSegment d "[]" leaf = Ok (VMap [(SStr "0", leaf)]).
Proof.
  intros Hpa. unfold wrapSegment. rewrite Hpa.
  destruct (decodeDotInKeys d); vm_compute; reflexivity.
Qed.

Lemma wrapAll_no_arrays d keys val :
  d.(parseArrays) = false ->
  Forall (fun root => root <> "") keys ->
  exists v, wrapAll d keys val = Ok v /\ single_path val v /\
            (keys <> [] -> exists m, v = VMap m).
Proof.
  intros Hpa. induction 1 as [|root keys Hroot _ IH]; cbn [wrapAll].
  - exists val. split_and!; [done|constructor|done].
  - destruct IH as (v & -> & Hpath & _). cbn [mbind result_bind].
    destruct (wrapSegment_no_arrays d root v Hpa Hroot) as [k ->].
    eexists. split_and!; [reflexivity|by constructor|intros _; eexists; reflexivity].
Qed.

(** C7, as amended: with parseArrays off, the segment made of an empty
    pair of brackets wraps the leaf in a mapping under the string key 0,
    and the key-path parser builds no sequence: for a key without an empty
    segment parseKeys returns the value wrapped in mappings of one
    string-keyed entry each. *)
Theorem parseKeys_without_parseArrays d key val :
  d.(parseArrays) = false ->
  Forall (fun root => root <> "") (segments d key) ->
  (forall leaf, wrapSegment d "[]" leaf = Ok (VMap [(SStr "0", leaf)])) /\
  exists m, parseKeys d key val = Ok m /\ single_path val (VMap m).
Proof.
  intros Hpa Hne. split; [intros; by apply wrapSegment_empty_brackets|].
  unfold parseKeys.
  destruct (wrapAll_no_arrays d (segments d key) val Hpa Hne)
    as (v & -> & Hpath & Hmap).
  destruct (segments_cons d key) as (root & rest & Heq).
  destruct Hmap as [m ->]; [by rewrite Heq|]. by exists m.
Qed.

(** The theorem at the key a[] and the value b. *)
Lemma parseKeys_without_parseArrays_witness :
  (forall leaf,
     wrapSegment (setParseArrays false defaultDecoder) "[]" leaf
       = Ok (VMap [(SStr "0", leaf)])) /\
  exists m,
    parseKeys (setParseArrays false defaultDecoder) "a[]" (VStr "b") = Ok m /\
    single_path (VStr "b") (VMap m).
Proof.
  apply (parseKeys_without_parseArrays (setParseArrays false defaultDecoder)
           "a[]" (VStr "b")).
  - reflexivity.
  - vm_compute. repeat constructor. all: discriminate.
Defined.

Example parseKeys_empty_brackets_off :
  parseKeys (setParseArrays false defaultDecoder) "a[]" (VStr "b")
    = Ok [(SStr "a", VMap [(SStr "0", VStr "b")])].
Proof. vm_compute; reflexivity. Qed.

(** C7, as stated, fails: with parseArrays off Parse still returns
    sequences, made by the combination of duplicates, by the split at
    commas and by the merge of a string with a mapping, none of which
    reads parseArrays. *)
Lemma arrays_without_parseArrays_counterexample :
  Parse (setParseArrays false defaultDecoder) "a=1&a=2" []
    = Ok [(SStr "a", VSlice [VStr "1"; VStr "2"])] /\
  Parse (setParseArrays false (WithComma true defaultDecoder)) "a=1,2" []
    = Ok [(SStr "a", VSlice [VStr "1"; VStr "2"])] /\
  Parse (setParseArrays false defaultDecoder) "a=1&a[b]=2" []
    = Ok [(SStr "a", VSlice [VStr "1"; VMap [(SStr "b", VStr "2")]])] /\
  ~ no_arrays_without_parseArrays.
Proof.
  split_and!; [vm_compute; reflexivity..|]. intros Hclaim.
  specialize (Hclaim (setParseArrays false defaultDecoder) "a=1&a=2" [] _
                eq_refl ltac:(vm_compute; reflexivity)).
  vm_compute in Hclaim. discriminate Hclaim.
Qed.

End parseKeys_facts.

(** ** The array recognition *)

Module objToArray_facts.
Import goqs spec merge_facts.

Lemma canBeArray_lookup (m : QSType) i :
  canBeArray m = true -> (i < length m)%nat ->
  is_Some (map_get (SInt (Z.of_nat i)) m).
Proof.
  unfold canBeArray. rewrite forallb_forall. intros Hall Hi.
  eapply bool_decide_eq_true_1, Hall, in_seq. lia.
Qed.

(** When the keys of a map are distinct and [canBeArray] holds, the keys
    are exactly the integers below the number of entries. *)
Lemma canBeArray_keys (m : QSType) :
  NoDup (keys m) -> canBeArray m = true ->
  keys m ≡ₚ (fun i => SInt (Z.of_nat i)) <$> seq 0 (length m).
Proof.
  intros Hnd Hcan. symmetry. apply submseteq_length_Permutation.
  - apply NoDup_submseteq.
    + apply NoDup_fmap_2; [|apply NoDup_seq].
      intros i j [= Hij]. lia.
    + intros k (i & -> & Hi)%list_elem_of_fmap.
      apply elem_of_seq in Hi.
      destruct (canBeArray_lookup m i Hcan) as [v Hv]; [lia|].
      by eapply map_get_Some_keys.
  - unfold keys. by rewrite !length_fmap, length_seq.
Qed.

Lemma objToArray_recognised v v' : objToArray v = Ok v' -> recognised v v'.
Proof.
  unfold objToArray, recognised. destruct v as [|s|l|m]; cbn [kind mbind result_bind].
  - done.
  - destruct s; by intros [= <-].
  - by intros [= <-].
  - destruct (canBeArray m) eqn:Hcan; [|by intros [= <-]].
    intros [= <-]. eexists. split_and!; [done| |].
    + by rewrite length_fmap, length_seq.
    + intros i Hi. rewrite list_lookup_fmap, lookup_seq_lt by done.
      destruct (canBeArray_lookup m i Hcan Hi) as [x Hx].
      cbn. by rewrite Hx.
Qed.

Lemma convertEntries_spec (obj ret0 ret : QSType) :
  NoDup (keys obj) ->
  (forall k, k ∈ keys obj -> k ∉ keys ret0) ->
  convertEntries obj ret0 = Ok ret ->
  exists new, ret = ret0 ++ new /\
    Forall2 (fun e e' => e'.1 = e.1 /\ recognised e.2 e'.2) obj new.
Proof.
  revert ret0. induction obj as [|[k v] obj IH]; intros ret0 Hnd Hfresh;
    cbn [convertEntries].
  - intros [= <-]. exists []. by rewrite app_nil_r.
  - intros (v' & Hv & Hrest)%bind_Ok.
    unfold keys in Hnd, Hfresh. rewrite fmap_cons in Hnd, Hfresh.
    apply list.NoDup_cons in Hnd as [Hk Hnd].
    rewrite map_set_fresh in Hrest
      by (apply map_get_None, Hfresh; left).
    apply IH in Hrest as (new & -> & Hall); [|done|].
    + exists ((k, v') :: new). rewrite <- app_assoc. split; [done|].
      constructor; [|done]. split; [done|]. by apply objToArray_recognised.
    + intros k' Hk'. unfold keys. rewrite fmap_app, not_elem_of_app. split.
      * apply Hfresh. by right.
      * cbn. rewrite list_elem_of_singleton. intros ->. done.
Qed.

(** What Parse returns is the merged root mapping with objToArray applied
    once to each direct value, and to nothing below.  A direct value that
    is a mapping binding every integer 0..n-1 becomes the sequence of the
    values bound to 0..n-1, taken as they are; every other direct value is
    returned as it is; the keys of the root are kept. *)
Theorem objToArray_at_root_only d input seed ret :
  input <> "" ->
  Parse d input seed = Ok ret ->
  exists tempObj obj,
    parseValues d input = Ok tempObj /\
    mergePairs d (range_order seed tempObj) (VMap []) = Ok (VMap obj) /\
    Forall2 (fun e e' => e'.1 = e.1 /\ recognised e.2 e'.2) obj ret.
Proof.
  intros Hne. unfold Parse.
  rewrite bool_decide_eq_false_2 by (by destruct input).
  intros (tempObj & Hv & (t & Ht & Hret)%bind_Ok)%bind_Ok.
  destruct (mergePairs_map _ _ _ _ Ht) as (obj & -> & Hnd).
  exists tempObj, obj. split_and!; [done|done|].
  apply convertEntries_spec in Hret as (new & -> & Hall); [done| |].
  - apply Hnd. constructor.
  - intros k _. apply not_elem_of_nil.
Qed.

(** The theorem at c[0]=y&a[b][0]=x: the value of c is rewritten, the
    mapping below a is not. *)
Lemma objToArray_at_root_only_witness :
  Parse defaultDecoder "c[0]=y&a[b][0]=x" []
    = Ok [(SStr "c", VSlice [VStr "y"]);
          (SStr "a", VMap [(SStr "b", VMap [(SInt 0, VStr "x")])])] /\
  exists tempObj obj,
    parseValues defaultDecoder "c[0]=y&a[b][0]=x" = Ok tempObj /\
    mergePairs defaultDecoder (range_order [] tempObj) (VMap []) = Ok (VMap obj) /\
    Forall2 (fun e e' => e'.1 = e.1 /\ recognised e.2 e'.2) obj
      [(SStr "c", VSlice [VStr "y"]);
       (SStr "a", VMap [(SStr "b", VMap [(SInt 0, VStr "x")])])].
Proof.
  split; [vm_compute; reflexivity|].
  apply (objToArray_at_root_only defaultDecoder "c[0]=y&a[b][0]=x" []).
  - discriminate.
  - vm_compute. reflexivity.
Defined.

End objToArray_facts.

(** ** Parse on the inputs the specification names *)

Module examples.
Import goqs spec.
Local Open Scope list_scope.

Lemma Parse_eq d input seed tempObj :
  input <> "" ->
  parseValues d input = Ok tempObj ->
  Parse d input seed =
    (t ← mergePairs d (range_order seed tempObj) (VMap []);
     convertEntries (mapOf t) []).
Proof.
  intros Hne Hv. unfold Parse. rewrite Hv.
  destruct input; [done|]. reflexivity.
Qed.

(** An input with one flat pair: the visiting order plays no part. *)
Lemma Parse_one_pair d input seed kv :
  input <> "" ->
  parseValues d input = Ok [kv] ->
  Parse d input seed =
    (t ← mergePairs d [kv] (VMap []); convertEntries (mapOf t) []).
Proof.
  intros Hne Hv. rewrite (Parse_eq _ _ _ _ Hne Hv).
  by rewrite range_order_singleton.
Qed.

(** With two flat pairs there are two runs. *)
Lemma Parse_two_pairs d input seed kv1 kv2 :
  input <> "" ->
  parseValues d input = Ok [kv1; kv2] ->
  Parse d input seed
    = (t ← mergePairs d [kv1; kv2] (VMap []); convertEntries (mapOf t) [])
  \/ Parse d input seed
    = (t ← mergePairs d [kv2; kv1] (VMap []); convertEntries (mapOf t) []).
Proof.
  intros Hne Hv. rewrite (Parse_eq _ _ _ _ Hne Hv).
  destruct (range_order_pair seed kv1 kv2) as [-> | ->]; auto.
Qed.

Ltac one_pair :=
  intros;
  match goal with
  | |- Parse ?d ?input ?seed = _ =>
      let tempObj := eval vm_compute in (parseValues d input) in
      match tempObj with
      | Ok [?kv] =>
          rewrite (Parse_one_pair d input seed kv);
          [ vm_compute; reflexivity | discriminate | vm_compute; reflexivity ]
      end
  end.

Ltac two_pairs :=
  intros;
  match goal with
  | |- Parse ?d ?input ?seed = _ =>
      let tempObj := eval vm_compute in (parseValues d input) in
      match tempObj with
      | Ok [?kv1; ?kv2] =>
          let H := fresh in
          destruct (Parse_two_pairs d input seed kv1 kv2) as [H | H];
          [ discriminate | vm_compute; reflexivity | .. ];
          rewrite H; vm_compute; reflexivity
      end
  end.

(** Cases of the repository's own tests, replayed on the embedding
    ([TestParseValue], [TestParseValueWithComma], [TestParseKeys],
    [TestParseSimpleString], [TestParseWithComma], [TestParseWithAllowDots]). *)

Example test_parseValues_bracket_equals :
  parseValues defaultDecoder "a[<=>]==23" = Ok [("a[<=>]", VStr "=23")].
Proof. vm_compute; reflexivity. Qed.

Example test_parseValues_plus :
  parseValues defaultDecoder "foo=c++" = Ok [("foo", VStr "c  ")].
Proof. vm_compute; reflexivity. Qed.

Example test_parseValues_two_keys :
  parseValues defaultDecoder "a.b=3&a[]=4" = Ok [("a.b", VStr "3"); ("a[]", VStr "4")].
Proof. vm_compute; reflexivity. Qed.

Example test_parseValues_comma_off :
  parseValues defaultDecoder "foo[]=a,b" = Ok [("foo[]", VStr "a,b")].
Proof. vm_compute; reflexivity. Qed.

Example test_parseValues_comma_combined :
  parseValues (WithComma true defaultDecoder) "foo=a,b&foo=c"
    = Ok [("foo", VSlice [VStr "a"; VStr "b"; VStr "c"])].
Proof. vm_compute; reflexivity. Qed.

Example test_parseValues_comma_self_array :
  parseValues (WithComma true defaultDecoder) "foo[]=a,b&foo[]=c"
    = Ok [("foo[]", VSlice [VSlice [VStr "a"; VStr "b"]; VStr "c"])].
Proof. vm_compute; reflexivity. Qed.

Example test_parseKeys_brackets :
  parseKeys defaultDecoder "foo[]" (VSlice [VStr "a"; VStr "b"])
    = Ok [(SStr "foo", VSlice [VStr "a"; VStr "b"])].
Proof. vm_compute; reflexivity. Qed.

Example test_parseKeys_dot :
  parseKeys defaultDecoder "a.b[]" (VStr "apple")
    = Ok [(SStr "a.b", VSlice [VStr "apple"])].
Proof. vm_compute; reflexivity. Qed.

Example test_Parse_spaces (seed : list nat) :
  Parse defaultDecoder " foo = bar = baz " seed
    = Ok [(SStr " foo ", VStr " bar = baz ")].
Proof. one_pair. Qed.

Example test_Parse_no_value (seed : list nat) :
  Parse defaultDecoder "foo" seed = Ok [(SStr "foo", VStr "")].
Proof. one_pair. Qed.

Example test_Parse_indices (seed : list nat) :
  Parse defaultDecoder "a[0]=b&a[1]=c" seed
    = Ok [(SStr "a", VSlice [VStr "b"; VStr "c"])].
Proof. two_pairs. Qed.

Example test_Parse_comma_indices (seed : list nat) :
  Parse (WithComma true defaultDecoder) "a[0]=a,b&a[1]=c,d" seed
    = Ok [(SStr "a", VSlice [VSlice [VStr "a"; VStr "b"];
                             VSlice [VStr "c"; VStr "d"]])].
Proof. two_pairs. Qed.

Example test_Parse_allowDots (seed : list nat) :
  Parse (WithAllowDots true defaultDecoder) "a.b=bar" seed
    = Ok [(SStr "a", VMap [(SStr "b", VStr "bar")])].
Proof. one_pair. Qed.

Example test_Parse_objects_in_array (seed : list nat) :
  Parse defaultDecoder "a[0][b]=c&a[1][d]=e" seed
    = Ok [(SStr "a", VSlice [VMap [(SStr "b", VStr "c")];
                             VMap [(SStr "d", VStr "e")]])].
Proof. two_pairs. Qed.

(** C2: with the default depth of 5, the key a[b][c][d][e][f][g][h] is
    nested five bracket levels below a (b, c, d, e, f) and the innermost
    mapping holds the rest of the key, the text [g][h], as one string key
    whose value is i. *)
Theorem Parse_depth_boundary (seed : list nat) :
  Parse defaultDecoder "a[b][c][d][e][f][g][h]=i" seed =
    Ok [(SStr "a",
         VMap [(SStr "b",
           VMap [(SStr "c",
             VMap [(SStr "d",
               VMap [(SStr "e",
                 VMap [(SStr "f",
                   VMap [(SStr "[g][h]", VStr "i")])])])])])])].
Proof. one_pair. Qed.

(** C5: with arrayLimit 20, a[20]=x puts x under the integer key 20 of the
    entry for a, and a[21]=x puts it under the string key 21; in neither
    case is the entry for a a sequence. *)
Theorem Parse_array_limit_boundary (seed : list nat) :
  defaultDecoder.(arrayLimit) = 20%Z /\
  Parse defaultDecoder "a[20]=x" seed = Ok [(SStr "a", VMap [(SInt 20, VStr "x")])] /\
  Parse defaultDecoder "a[21]=x" seed = Ok [(SStr "a", VMap [(SStr "21", VStr "x")])].
Proof. split; [reflexivity|]. split; one_pair. Qed.

(** C8: the array recognition is not applied below the direct values of
    the root.  In every visiting order Parse turns the mapping of a[0]=x,
    which binds the integer 0, into a sequence, and leaves the same
    mapping of a[b][0]=x, one level further down, as a mapping: the
    rewriting has not been done at every depth. *)
Theorem Parse_nested_indices_stay_mappings (seed : list nat) :
  Parse defaultDecoder "a[0]=x" seed = Ok [(SStr "a", VSlice [VStr "x"])] /\
  Parse defaultDecoder "a[b][0]=x" seed
    = Ok [(SStr "a", VMap [(SStr "b", VMap [(SInt 0, VStr "x")])])] /\
  ~ recognised_at_every_depth.
Proof.
  split; [one_pair|]. split; [one_pair|]. intros Hclaim.
  specialize (Hclaim defaultDecoder "a[b][0]=x" [] _ ltac:(vm_compute; reflexivity)).
  vm_compute in Hclaim. discriminate Hclaim.
Qed.

(** C1: Parse does not complete on every input.  With the default decoder
    the inputs =5 and a=1& make it panic, whatever the visiting order: the
    empty flat key reaches the byte test root[0] of parseKeys.  Under
    strictNullHandling the input foo panics as well, in objToArray, which
    asks for the kind of a nil value. *)
Theorem Parse_panics_on_odd_input (seed : list nat) :
  Parse defaultDecoder "=5" seed = Panic /\
  Parse defaultDecoder "a=1&" seed = Panic /\
  Parse (setStrictNullHandling true defaultDecoder) "foo" seed = Panic.
Proof. split; [one_pair|]. split; [two_pairs | one_pair]. Qed.

(** C4: on a=1& the value splitter keeps the empty fragment as the flat
    key of length zero, parseKeys panics on that key, and so does Parse:
    the result is not the mapping that only binds a to 1. *)
Theorem Parse_trailing_delimiter (seed : list nat) :
  parseValues defaultDecoder "a=1&" = Ok [("a", VStr "1"); ("", VStr "")] /\
  parseKeys defaultDecoder "" (VStr "") = Panic /\
  Parse defaultDecoder "a=1&" seed <> Ok [(SStr "a", VStr "1")].
Proof.
  split; [vm_compute; reflexivity|]. split; [vm_compute; reflexivity|].
  assert (Parse defaultDecoder "a=1&" seed = Panic) as -> by two_pairs.
  discriminate.
Qed.

(** C3: in comma mode the decision to split is taken on the decoded value.
    foo=a%2Cb gives the sequence a, b and foo=a%2Cb,c gives the sequence
    a, b, c; only foo=a,b behaves as the specification says. *)
Theorem Parse_comma_after_decoding (seed : list nat) :
  Parse (WithComma true defaultDecoder) "foo=a%2Cb" seed
    = Ok [(SStr "foo", VSlice [VStr "a"; VStr "b"])] /\
  Parse (WithComma true defaultDecoder) "foo=a,b" seed
    = Ok [(SStr "foo", VSlice [VStr "a"; VStr "b"])] /\
  Parse (WithComma true defaultDecoder) "foo=a%2Cb,c" seed
    = Ok [(SStr "foo", VSlice [VStr "a"; VStr "b"; VStr "c"])].
Proof. split; [one_pair|]. split; one_pair. Qed.

(** C9: two runs of Parse on a=1&a[b]=2 with the default decoder, one
    visiting the flat key a first and one visiting a[b] first, return
    different values for a: a sequence in the first run, a mapping in the
    second. *)
Theorem Parse_depends_on_visiting_order :
  Parse defaultDecoder "a=1&a[b]=2" [0%nat]
    = Ok [(SStr "a", VSlice [VStr "1"; VMap [(SStr "b", VStr "2")]])] /\
  Parse defaultDecoder "a=1&a[b]=2" [1%nat]
    = Ok [(SStr "a", VMap [(SStr "b", VStr "2"); (SStr "1", VTrue)])] /\
  same_result (Parse defaultDecoder "a=1&a[b]=2" [0%nat])
              (Parse defaultDecoder "a=1&a[b]=2" [1%nat]) = false.
Proof. repeat split; vm_compute; reflexivity. Qed.

End examples.

(** ** More on the merge engine and the array recognition *)

Module structure_facts.
Import goqs spec merge_facts objToArray_facts.

Lemma map_get_imap_offset (arr : list value) (off i : nat) :
  map_get (SInt (Z.of_nat (off + i)))
          (imap (fun j v => (SInt (Z.of_nat (off + j)), v)) arr) = arr !! i.
Proof.
  revert off i. induction arr as [|x arr IH]; intros off i; [done|].
  cbn [imap map_get]. destruct i as [|i].
  - rewrite Nat.add_0_r. by rewrite decide_True.
  - rewrite decide_False by (intros [= Heq]; lia).
    cbn [lookup list_lookup].
    etransitivity; [|apply (IH (S off) i)]. rewrite Nat.add_succ_r. f_equal.
    apply imap_ext. intros j y _. cbn. do 2 f_equal. lia.
Qed.

Lemma map_get_arrayToObj (arr : list value) (i : nat) :
  map_get (SInt (Z.of_nat i)) (arrayToObj arr) = arr !! i.
Proof. apply (map_get_imap_offset arr 0 i). Qed.

Lemma length_arrayToObj (arr : list value) : length (arrayToObj arr) = length arr.
Proof. unfold arrayToObj. apply length_imap. Qed.

(** A sequence turned into a mapping by arrayToObj is recognised again:
    objToArray gives back the sequence, element for element. *)
Theorem objToArray_arrayToObj (arr : list value) :
  canBeArray (arrayToObj arr) = true /\
  objToArray (VMap (arrayToObj arr)) = Ok (VSlice arr).
Proof.
  assert (canBeArray (arrayToObj arr) = true) as Hcan.
  { unfold canBeArray. apply forallb_forall. intros i Hi%in_seq.
    apply bool_decide_eq_true_2. rewrite map_get_arrayToObj.
    apply lookup_lt_is_Some. rewrite length_arrayToObj in Hi. lia. }
  split; [done|]. unfold objToArray. cbn [kind mbind result_bind].
  rewrite Hcan. do 2 f_equal. apply list_eq. intros i.
  rewrite list_lookup_fmap, length_arrayToObj.
  destruct (decide (i < length arr)%nat) as [Hi|Hi].
  - rewrite lookup_seq_lt by done. cbn. rewrite map_get_arrayToObj.
    by destruct (lookup_lt_is_Some_2 arr i Hi) as [x ->].
  - rewrite lookup_seq_ge by lia. by rewrite lookup_ge_None_2 by lia.
Qed.

(** Recognition is idempotent: what objToArray returns is returned as it
    is by a second call. *)
Theorem objToArray_idempotent (v v' : value) :
  objToArray v = Ok v' -> objToArray v' = Ok v'.
Proof.
  unfold objToArray. destruct v as [|[]|l|m]; cbn [kind mbind result_bind];
    [done|by intros [= <-]..|].
  destruct (canBeArray m) eqn:Hcan; intros [= <-]; [done|].
  cbn [kind mbind result_bind]. by rewrite Hcan.
Qed.

Lemma objToArray_idempotent_witness :
  objToArray (VSlice [VStr "x"]) = Ok (VSlice [VStr "x"]).
Proof.
  apply (objToArray_idempotent (VMap [(SInt 0, VStr "x")])).
  vm_compute. reflexivity.
Defined.

Lemma elem_of_keys_map_set (k k' : scalar) (v : value) (m : QSType) :
  k' ∈ keys (map_set k v m) <-> k' ∈ keys m \/ k' = k.
Proof.
  rewrite keys_map_set. destruct (map_get k m) as [x|] eqn:Hk.
  - apply map_get_Some_keys in Hk. split; [by left|]. by intros [?| ->].
  - by rewrite elem_of_app, list_elem_of_singleton.
Qed.

Lemma mergeEntries_pointwise rec (m mapS m' : QSType) :
  NoDup (keys mapS) ->
  mergeEntries rec m mapS = Ok m' ->
  forall k,
    match map_get k mapS with
    | None => map_get k m' = map_get k m
    | Some v =>
        match map_get k m with
        | None => map_get k m' = Some v
        | Some tv => exists x, rec tv v = Ok x /\ map_get k m' = Some x
        end
    end.
Proof.
  revert m m'. induction mapS as [|[k0 v0] mapS IH]; intros m m' Hnd;
    cbn [mergeEntries].
  - by intros [= <-] k.
  - unfold keys in Hnd. rewrite fmap_cons in Hnd.
    apply list.NoDup_cons in Hnd as [Hk0 Hnd]. cbn [fst] in Hk0.
    assert (map_get k0 mapS = None) as Hk0' by by apply map_get_None.
    intros Hm k. cbn [map_get].
    assert (forall x m1, mergeEntries rec (map_set k0 x m) mapS = Ok m1 ->
              map_get k0 m1 = Some x /\
              forall k, k <> k0 ->
                match map_get k mapS with
                | None => map_get k m1 = map_get k m
                | Some v =>
                    match map_get k m with
                    | None => map_get k m1 = Some v
                    | Some tv => exists x, rec tv v = Ok x /\ map_get k m1 = Some x
                    end
                end) as Hstep.
    { intros x m1 Hm1. split.
      - specialize (IH _ _ Hnd Hm1 k0). rewrite Hk0' in IH.
        by rewrite IH, map_get_set, decide_True.
      - intros k' Hne. specialize (IH _ _ Hnd Hm1 k').
        by rewrite map_get_set, decide_False in IH. }
    destruct (map_get k0 m) as [tv|] eqn:Htv.
    + apply bind_Ok in Hm as (x & Hx & Hm). apply Hstep in Hm as [Hk0m Hrest].
      destruct (decide (k = k0)) as [->|Hne]; [|by apply Hrest].
      rewrite Htv. by exists x.
    + apply Hstep in Hm as [Hk0m Hrest].
      destruct (decide (k = k0)) as [->|Hne]; [|by apply Hrest].
      by rewrite Htv.
Qed.

Lemma mergeEntries_keys rec (m mapS m' : QSType) :
  mergeEntries rec m mapS = Ok m' ->
  forall k, k ∈ keys m' <-> k ∈ keys m \/ k ∈ keys mapS.
Proof.
  revert m m'. induction mapS as [|[k0 v0] mapS IH]; intros m m';
    cbn [mergeEntries].
  - intros [= <-] k. unfold keys at 3. rewrite fmap_nil, elem_of_nil. tauto.
  - intros Hm k. unfold keys at 3. rewrite fmap_cons, elem_of_cons. cbn [fst].
    fold (keys mapS).
    destruct (map_get k0 m) as [tv|].
    + apply bind_Ok in Hm as (x & _ & Hm).
      rewrite (IH _ _ Hm), elem_of_keys_map_set. tauto.
    + rewrite (IH _ _ Hm), elem_of_keys_map_set. tauto.
Qed.

(** Merging a mapping into a mapping loses no sibling: the keys of the
    result are those of the accumulator and those of the addition.  A key
    of the accumulator alone keeps its value, a key of the addition alone
    takes the addition's value, and a key of both holds the merge of the
    two values. *)
Theorem merge_map_map_keys (m mapS : QSType) (r : value) :
  NoDup (keys mapS) ->
  merge (VMap m) (VMap mapS) = Ok r ->
  exists m',
    r = VMap m' /\
    (forall k, k ∈ keys m' <-> k ∈ keys m \/ k ∈ keys mapS) /\
    (forall k,
       match map_get k mapS with
       | None => map_get k m' = map_get k m
       | Some v =>
           match map_get k m with
           | None => map_get k m' = Some v
           | Some tv => exists x, merge tv v = Ok x /\ map_get k m' = Some x
           end
       end).
Proof.
  intros Hnd. cbn [merge kind mbind result_bind].
  intros (m' & Hm & ->)%fmap_Ok. exists m'. split_and!; [done| |].
  - by eapply mergeEntries_keys.
  - by eapply mergeEntries_pointwise.
Qed.

Lemma merge_map_map_keys_witness :
  exists m',
    VMap [(SStr "a", VSlice [VStr "1"; VStr "2"]); (SStr "b", VStr "3")] = VMap m' /\
    (forall k, k ∈ keys m' <->
       k ∈ keys [(SStr "a", VStr "1")] \/
       k ∈ keys [(SStr "a", VStr "2"); (SStr "b", VStr "3")]) /\
    (forall k,
       match map_get k [(SStr "a", VStr "2"); (SStr "b", VStr "3")] with
       | None => map_get k m' = map_get k [(SStr "a", VStr "1")]
       | Some v =>
           match map_get k [(SStr "a", VStr "1")] with
           | None => map_get k m' = Some v
           | Some tv => exists x, merge tv v = Ok x /\ map_get k m' = Some x
           end
       end).
Proof.
  apply (merge_map_map_keys [(SStr "a", VStr "1")]
           [(SStr "a", VStr "2"); (SStr "b", VStr "3")]).
  - apply (bool_decide_unpack _). vm_compute. exact I.
  - vm_compute. reflexivity.
Defined.

End structure_facts.

(** ** Limits *)

Module limit_facts.
Import GoString GoSplit GoRegexp goqs spec.

Lemma length_cut_go cuts s sep : (length (cut_go cuts s sep) <= S cuts)%nat.
Proof.
  revert s. induction cuts as [|cuts IH]; intros s; cbn [cut_go]; [done|].
  destruct (find s sep); cbn [length]; [|lia]. specialize (IH (drop (n + String.length sep) s)). lia.
Qed.

Lemma length_explode_go k s : length (explode_go k s) = S k.
Proof.
  revert s. induction k as [|k IH]; intros s; cbn [explode_go length]; [done|].
  by rewrite IH.
Qed.

Lemma length_SplitN s sep n :
  (0 < n)%Z -> (Z.of_nat (length (SplitN s sep n)) <= n)%Z.
Proof.
  intros Hn. unfold SplitN. rewrite bool_decide_eq_false_2 by lia.
  destruct (bool_decide (sep = "")).
  - unfold explode. rewrite (bool_decide_eq_false_2 (n < 0)%Z) by lia.
    cbn [orb]. destruct (bool_decide (_ < n)%Z) eqn:Hl.
    + apply bool_decide_eq_true in Hl.
      destruct (bool_decide (0 < _)%Z) eqn:H0; [|cbn; lia].
      rewrite length_explode_go. lia.
    + rewrite bool_decide_eq_true_2 by done. rewrite length_explode_go. lia.
  - rewrite (bool_decide_eq_false_2 (n < 0)%Z) by lia.
    pose proof (length_cut_go (Nat.min (Z.to_nat (n - 1)) (String.length s)) s sep).
    lia.
Qed.

Lemma length_splitParts d str parts :
  splitParts d str = Ok parts ->
  length parts = length (SplitN str d.(delimiter) d.(parameterLimit)).
Proof.
  unfold splitParts. destruct (bool_decide (_ = parameterLimit d)); [|by intros [= <-]].
  destruct (bool_decide _); [done|]. destruct (_ !! _); [|done].
  intros [= <-]. by rewrite length_insert.
Qed.

Lemma length_fragments d str parts :
  (0 < d.(parameterLimit))%Z ->
  fragments d str = Ok parts ->
  (Z.of_nat (length parts) <= d.(parameterLimit))%Z.
Proof.
  intros Hlim. unfold fragments. intros (str' & _ & Hparts)%bind_Ok.
  rewrite (length_splitParts _ _ _ Hparts). by apply length_SplitN.
Qed.

Lemma length_map_set {K V} `{EqDecision K} (k : K) (v : V) (m : list (K * V)) :
  (length (map_set k v m) <= S (length m))%nat.
Proof.
  induction m as [|[k' v'] m IH]; cbn [map_set length]; [done|].
  destruct (decide (k = k')); cbn [length]; lia.
Qed.

Lemma length_parseParts d parts res res' :
  parseParts d parts res = Ok res' ->
  (length res' <= length res + length parts)%nat.
Proof.
  revert res. induction parts as [|part parts IH]; intros res; cbn [parseParts].
  - intros [= <-]. lia.
  - intros ([key val] & _ & (res1 & Hst & Hrest%IH)%bind_Ok)%bind_Ok.
    assert (length res1 <= S (length res))%nat; [|cbn [length]; lia].
    unfold storePair in Hst. destruct (map_get key res).
    + destruct (bool_decide _).
      * apply bind_Ok in Hst as (c & _ & [= <-]). apply length_map_set.
      * injection Hst as <-. apply length_map_set.
    + injection Hst as <-. apply length_map_set.
Qed.

Lemma parseValues_parameterLimit_bound d str res :
  (0 < d.(parameterLimit))%Z ->
  parseValues d str = Ok res ->
  (Z.of_nat (length res) <= d.(parameterLimit))%Z.
Proof.
  intros Hlim. unfold parseValues. intros (parts & Hparts & Hres)%bind_Ok.
  apply length_parseParts in Hres. cbn [length] in Hres.
  pose proof (length_fragments d str parts Hlim Hparts). lia.
Qed.

(** The value splitter returns at most parameterLimit flat pairs. *)
Theorem parseValues_parameterLimit d str res :
  (0 < d.(parameterLimit))%Z ->
  parseValues d str = Ok res ->
  (Z.of_nat (length res) <= d.(parameterLimit))%Z.
Proof. apply parseValues_parameterLimit_bound. Qed.

Lemma parseValues_parameterLimit_witness :
  (Z.of_nat (length [("a", VStr "1"); ("b", VStr "2")]) <= 1000)%Z.
Proof.
  apply (parseValues_parameterLimit defaultDecoder "a=1&b=2").
  - vm_compute. reflexivity.
  - vm_compute. reflexivity.
Defined.

(** With a parameterLimit of 0 the value splitter panics on every input
    (it indexes the empty list of fragments at -1), and so does Parse on
    every input that is not empty. *)
Theorem parameterLimit_zero_panics d str seed :
  d.(parameterLimit) = 0%Z ->
  parseValues d str = Panic /\ (str <> "" -> Parse d str seed = Panic).
Proof.
  intros Hlim.
  assert (forall s, splitParts d s = Panic) as Hsplit.
  { intros s. unfold splitParts, SplitN. by rewrite Hlim. }
  assert (parseValues d str = Panic) as Hv.
  { unfold parseValues, fragments. destruct (ignoreQueryPrefix d).
    - destruct str; [done|]. cbn [mbind result_bind]. by rewrite Hsplit.
    - cbn [mbind result_bind]. by rewrite Hsplit. }
  split; [done|]. intros Hne. unfold Parse. rewrite Hv.
  by destruct str.
Qed.

Lemma parameterLimit_zero_panics_witness :
  parseValues (setParameterLimit 0 defaultDecoder) "a=1" = Panic /\
  ("a=1" <> "" -> Parse (setParameterLimit 0 defaultDecoder) "a=1" [] = Panic).
Proof.
  apply (parameterLimit_zero_panics (setParameterLimit 0 defaultDecoder) "a=1" []).
  reflexivity.
Defined.

Lemma wrapSegment_shape d root leaf v :
  wrapSegment d root leaf = Ok v ->
  (exists l, v = VSlice l /\ (l = [] \/ concat [] [leaf] = Ok l)) \/
  (exists k, v = VMap [(k, leaf)] /\ key_allowed d k).
Proof.
  unfold wrapSegment. destruct (bool_decide (root = "[]") && parseArrays d).
  - destruct (allowEmptyArrays d && is_nil leaf).
    + intros [= <-]. left. eexists. split; [done|by left].
    + intros (l & Hl & ->)%fmap_Ok. left. exists l. split; [done|by right].
  - destruct root as [|c0 root']; [done|].
    destruct (negb (parseArrays d) && _); [intros [= <-]; right; by eexists|].
    destruct (GoStrconv.Atoi _) as [index|]; [|intros [= <-]; right; by eexists].
    destruct (_ && _) eqn:Hcond; intros [= <-]; right; [|by eexists].
    eexists. split; [done|]. cbn.
    apply andb_prop in Hcond as [[_ H0]%andb_prop [Hpa Hlim]%andb_prop].
    apply bool_decide_eq_true in H0, Hlim. done.
Qed.

Lemma parseKeys_singleton d key val m :
  parseKeys d key val = Ok m -> exists k v, m = [(k, v)].
Proof.
  unfold parseKeys. intros (leaf & Hleaf & Hm)%bind_Ok.
  destruct leaf as [| | |m0]; [done..|]. injection Hm as <-.
  destruct (parseKeys_facts.segments_cons d key) as (root & rest & Heq).
  rewrite Heq in Hleaf. cbn [wrapAll] in Hleaf.
  apply bind_Ok in Hleaf as (leaf & _ & Hw).
  apply wrapSegment_shape in Hw as [(l & [=] & _)|(k & [= ->] & _)].
  by eexists _, _.
Qed.

Lemma length_mergeEntries rec (m mapS m' : QSType) :
  mergeEntries rec m mapS = Ok m' ->
  (length m' <= length m + length mapS)%nat.
Proof.
  revert m m'. induction mapS as [|[k v] mapS IH]; intros m m'; cbn [mergeEntries].
  - intros [= <-]. lia.
  - destruct (map_get k m).
    + intros (x & _ & Hm%IH)%bind_Ok.
      pose proof (length_map_set k x m). cbn [length]. lia.
    + intros Hm%IH. pose proof (length_map_set k v m). cbn [length]. lia.
Qed.

Lemma length_mergePairs d pairs (m : QSType) t :
  mergePairs d pairs (VMap m) = Ok t ->
  (length (mapOf t) <= length m + length pairs)%nat.
Proof.
  revert m. induction pairs as [|[k v] pairs IH]; intros m; cbn [mergePairs].
  - intros [= <-]. cbn. lia.
  - intros (newObj & Hnew & (t' & Hm & Hrest)%bind_Ok)%bind_Ok.
    apply parseKeys_singleton in Hnew as (k' & v' & ->).
    cbn [merge kind mbind result_bind] in Hm.
    apply fmap_Ok in Hm as (m' & Hm' & ->).
    apply length_mergeEntries in Hm'. apply IH in Hrest.
    cbn [length] in *. lia.
Qed.

Lemma length_convertEntries (obj ret0 ret : QSType) :
  convertEntries obj ret0 = Ok ret ->
  (length ret <= length ret0 + length obj)%nat.
Proof.
  revert ret0. induction obj as [|[k v] obj IH]; intros ret0; cbn [convertEntries].
  - intros [= <-]. lia.
  - intros (v' & _ & Hrest%IH)%bind_Ok.
    pose proof (length_map_set k v' ret0). cbn [length]. lia.
Qed.

(** The mapping Parse returns has at most parameterLimit keys. *)
Theorem Parse_parameterLimit d input seed ret :
  (0 < d.(parameterLimit))%Z ->
  Parse d input seed = Ok ret ->
  (Z.of_nat (length ret) <= d.(parameterLimit))%Z.
Proof.
  intros Hlim. unfold Parse. destruct (bool_decide _).
  - intros [= <-]. cbn. lia.
  - intros (tempObj & Hv & (t & Ht & Hret)%bind_Ok)%bind_Ok.
    apply (parseValues_parameterLimit_bound d input tempObj Hlim) in Hv.
    apply length_mergePairs in Ht. apply length_convertEntries in Hret.
    rewrite (Permutation_length (range_order_perm seed tempObj)) in Ht.
    cbn [length] in *. lia.
Qed.

Lemma Parse_parameterLimit_witness :
  (Z.of_nat (length [(SStr "a", VStr "1"); (SStr "b", VStr "2")]) <= 1000)%Z.
Proof.
  apply (Parse_parameterLimit defaultDecoder "a=1&b=2" []).
  - vm_compute. reflexivity.
  - vm_compute. reflexivity.
Defined.

Lemma length_bracket_find_all n off s :
  (length (bracket_find_all n off s) <= n)%nat.
Proof.
  revert off s. induction n as [|n IH]; intros off s; cbn [bracket_find_all]; [done|].
  destruct (bracket_find s) as [[i j]|]; cbn [length]; [|lia].
  specialize (IH (off + j)%nat (drop j s)). lia.
Qed.

Lemma length_segments d key :
  (length (segments d key) <= Z.to_nat d.(depth) + 2)%nat.
Proof.
  unfold segments. destruct (bracket_find _) as [loc|]; [|cbn; lia].
  destruct (bool_decide (0 < depth d)%Z); [|cbn; lia].
  cbn [length]. rewrite length_app, length_fmap.
  pose proof (length_bracket_find_all (Z.to_nat (depth d)) 0
                (if allowDots d then dot_replace key else key)).
  destruct (bool_decide _); cbn [length]; lia.
Qed.

Lemma height_wrapSegment d root leaf v :
  wrapSegment d root leaf = Ok v -> (height v <= S (height leaf))%nat.
Proof.
  intros [(l & -> & [->|Hl])|(k & -> & _)]%wrapSegment_shape.
  - cbn. lia.
  - destruct leaf as [|[]|l0|m]; cbn in Hl; [done|injection Hl as <-..];
      cbn [height foldr]; lia.
  - cbn [height foldr]. lia.
Qed.

Lemma height_wrapAll d keys val v :
  wrapAll d keys val = Ok v -> (height v <= height val + length keys)%nat.
Proof.
  revert v. induction keys as [|root keys IH]; intros v; cbn [wrapAll length].
  - intros [= <-]. lia.
  - intros (leaf & Hleaf%IH & Hv%height_wrapSegment)%bind_Ok. lia.
Qed.

(** The depth limit bounds the nesting: a flat key is cut into at most
    depth + 2 segments (the parent, at most depth bracket groups, and what
    is left of the key), and parseKeys nests the value at most that many
    mappings and sequences deep. *)
Theorem parseKeys_depth_bound d key val m :
  parseKeys d key val = Ok m ->
  (length (segments d key) <= Z.to_nat d.(depth) + 2)%nat /\
  (height (VMap m) <= height val + Z.to_nat d.(depth) + 2)%nat.
Proof.
  intros Hm. pose proof (length_segments d key) as Hlen. split; [done|].
  unfold parseKeys in Hm. apply bind_Ok in Hm as (leaf & Hleaf & Hm).
  destruct leaf as [| | |m0]; [done..|]. injection Hm as <-.
  apply height_wrapAll in Hleaf. lia.
Qed.

Lemma parseKeys_depth_bound_witness :
  (length (segments (setDepth 1 defaultDecoder) "a[b][c][d]") <= Z.to_nat 1 + 2)%nat /\
  (height (VMap [(SStr "a", VMap [(SStr "b", VMap [(SStr "[c][d]", VStr "e")])])])
     <= height (VStr "e") + Z.to_nat 1 + 2)%nat.
Proof.
  apply (parseKeys_depth_bound (setDepth 1 defaultDecoder) "a[b][c][d]" (VStr "e")).
  vm_compute. reflexivity.
Defined.

Lemma key_path_wrapAll d keys val v :
  wrapAll d keys val = Ok v -> key_path (key_allowed d) val v.
Proof.
  revert v. induction keys as [|root keys IH]; intros v; cbn [wrapAll].
  - intros [= <-]. constructor.
  - intros (leaf & Hleaf%IH & [(l & -> & [->|Hl])|(k & -> & Hk)]%wrapSegment_shape)%bind_Ok.
    + apply key_path_empty.
    + destruct leaf as [|[]|ss|m]; cbn in Hl; [done|..]; injection Hl as <-.
      * by apply key_path_slice.
      * by apply key_path_slice.
      * by apply key_path_slice.
      * done.
      * by apply key_path_slice.
    + by constructor.
Qed.

(** What parseKeys returns is the value under mappings of one entry and
    sequences of one element, and every key of these mappings is a string,
    or an integer between 0 and arrayLimit (both included), the latter
    only when parseArrays is on. *)
Theorem parseKeys_keys_allowed d key val m :
  parseKeys d key val = Ok m -> key_path (key_allowed d) val (VMap m).
Proof.
  unfold parseKeys. intros (leaf & Hleaf & Hm)%bind_Ok.
  destruct leaf as [| | |m0]; [done..|]. injection Hm as <-.
  by eapply key_path_wrapAll.
Qed.

Lemma parseKeys_keys_allowed_witness :
  key_path (key_allowed defaultDecoder) (VStr "x")
    (VMap [(SStr "a", VSlice [VMap [(SInt 20, VMap [(SStr "21", VStr "x")])]])]).
Proof.
  apply (parseKeys_keys_allowed defaultDecoder "a[][20][21]" (VStr "x")).
  vm_compute. reflexivity.
Defined.

End limit_facts.

(** ** Combining duplicates *)

Module combine_facts.
Import goqs spec.

Lemma combineValue_elems v1 v2 :
  v1 <> VNil -> v2 <> VNil -> combineValue v1 v2 = Ok (elems v1 ++ elems v2).
Proof.
  intros H1 H2.
  destruct v1 as [|[]|a1|m1]; [done|..]; destruct v2 as [|[]|a2|m2]; done.
Qed.

Lemma storePair_combine d key v1 v2 :
  d.(duplicates) = "combine" -> v1 <> VNil -> v2 <> VNil ->
  storePair d [(key, v1)] (key, v2) = Ok [(key, VSlice (elems v1 ++ elems v2))].
Proof.
  intros Hd H1 H2. unfold storePair. cbn [map_get]. rewrite decide_True by done.
  rewrite Hd, bool_decide_eq_true_2 by done.
  rewrite combineValue_elems by done. cbn [mbind result_bind map_set].
  by rewrite decide_True.
Qed.

Lemma parseParts_combine_more d key parts vs l :
  d.(duplicates) = "combine" ->
  Forall2 (fun part v => parsePart d part = Ok (key, v)) parts vs ->
  Forall (fun v => v <> VNil) vs ->
  parseParts d parts [(key, VSlice l)]
    = Ok [(key, VSlice (l ++ flat_map elems vs))].
Proof.
  intros Hd Hparts. revert l.
  induction Hparts as [|part v parts vs Hpart _ IH]; intros l Hnn;
    cbn [parseParts flat_map].
  - by rewrite app_nil_r.
  - apply Forall_cons_1 in Hnn as [Hv Hnn]. rewrite Hpart. cbn [mbind result_bind].
    rewrite (storePair_combine d key (VSlice l) v) by done.
    cbn [mbind result_bind elems]. rewrite IH by done. by rewrite app_assoc.
Qed.

Lemma parseParts_combine d key parts vs :
  d.(duplicates) = "combine" ->
  Forall2 (fun part v => parsePart d part = Ok (key, v)) parts vs ->
  Forall (fun v => v <> VNil) vs ->
  parseParts d parts [] =
    Ok match vs with
       | [] => []
       | [v] => [(key, v)]
       | _ => [(key, VSlice (flat_map elems vs))]
       end.
Proof.
  intros Hd Hparts Hnn.
  destruct Hparts as [|part1 v1 parts vs Hpart1 Hparts]; [done|].
  apply Forall_cons_1 in Hnn as [Hv1 Hnn].
  cbn [parseParts]. rewrite Hpart1. cbn [mbind result_bind storePair map_get map_set].
  destruct Hparts as [|part2 v2 parts vs Hpart2 Hparts]; [done|].
  apply Forall_cons_1 in Hnn as [Hv2 Hnn].
  cbn [parseParts]. rewrite Hpart2. cbn [mbind result_bind].
  rewrite (storePair_combine d key v1 v2) by done. cbn [mbind result_bind].
  rewrite (parseParts_combine_more d key parts vs) by done.
  cbn [flat_map]. by rewrite app_assoc.
Qed.

(** Under the policy combine, the occurrences of one flat key are gathered
    in order: when every fragment of the input has the same key, one
    occurrence is stored as it is, and two or more become one sequence, in
    which an occurrence that is itself a sequence contributes its
    elements. *)
Theorem parseValues_combine d str key parts vs :
  d.(duplicates) = "combine" ->
  fragments d str = Ok parts ->
  Forall2 (fun part v => parsePart d part = Ok (key, v)) parts vs ->
  Forall (fun v => v <> VNil) vs ->
  parseValues d str =
    Ok match vs with
       | [] => []
       | [v] => [(key, v)]
       | _ => [(key, VSlice (flat_map elems vs))]
       end.
Proof.
  intros Hd Hparts Hall Hnn. unfold parseValues. rewrite Hparts.
  cbn [mbind result_bind]. by apply parseParts_combine.
Qed.

Lemma parseValues_combine_witness :
  parseValues (WithComma true defaultDecoder) "a=x&a=y,z&a=w" =
    Ok match [VStr "x"; VSlice [VStr "y"; VStr "z"]; VStr "w"] with
       | [] => []
       | [v] => [("a", v)]
       | _ => [("a", VSlice (flat_map elems
                               [VStr "x"; VSlice [VStr "y"; VStr "z"]; VStr "w"]))]
       end.
Proof.
  apply (parseValues_combine (WithComma true defaultDecoder) "a=x&a=y,z&a=w" "a"
           ["a=x"; "a=y,z"; "a=w"]
           [VStr "x"; VSlice [VStr "y"; VStr "z"]; VStr "w"]).
  - reflexivity.
  - vm_compute. reflexivity.
  - repeat constructor.
  - repeat constructor. all: discriminate.
Defined.

End combine_facts.

(** ** When the decoder completes *)

Module safety_facts.
Import GoString GoSplit GoRegexp goqs spec.

(** Induction on values that reaches the elements of sequences and the
    values of mappings. *)
Lemma value_ind_nested (P : value -> Prop) :
  P VNil ->
  (forall s, P (VScalar s)) ->
  (forall l, Forall P l -> P (VSlice l)) ->
  (forall m, Forall (fun kv => P kv.2) m -> P (VMap m)) ->
  forall v, P v.
Proof.
  intros Hnil Hscalar Hslice Hmap. fix IH 1. intros [|s|l|m].
  - exact Hnil.
  - apply Hscalar.
  - apply Hslice. induction l as [|x l IHl]; constructor; [apply IH|exact IHl].
  - apply Hmap. induction m as [|[k x] m IHm]; constructor; [apply IH|exact IHm].
Qed.

Lemma nil_free_lookup (l : list value) i x :
  forallb nil_free l = true -> l !! i = Some x -> nil_free x = true.
Proof.
  rewrite forallb_forall. intros Hall Hx. apply Hall.
  apply list_elem_of_In. by eapply list_elem_of_lookup_2.
Qed.

Lemma nil_free_insert (l : list value) i x :
  forallb nil_free l = true -> nil_free x = true ->
  forallb nil_free (<[i:=x]> l) = true.
Proof.
  revert i. induction l as [|y l IH]; intros i; [done|]. cbn [forallb].
  intros [Hy Hl]%andb_prop Hx. destruct i as [|i]; cbn [insert list_insert forallb].
  - by rewrite Hx, Hl.
  - by rewrite Hy, IH.
Qed.

Lemma nil_free_map_get (m : QSType) k x :
  forallb (fun '(_, y) => nil_free y) m = true ->
  map_get k m = Some x -> nil_free x = true.
Proof.
  induction m as [|[k' y] m IH]; [done|]. cbn [forallb map_get].
  intros [Hy Hm]%andb_prop. destruct (decide (k = k')); [by intros [= <-]|auto].
Qed.

Lemma nil_free_map_set (m : QSType) k x :
  forallb (fun '(_, y) => nil_free y) m = true -> nil_free x = true ->
  forallb (fun '(_, y) => nil_free y) (map_set k x m) = true.
Proof.
  induction m as [|[k' y] m IH]; cbn [forallb map_set].
  - intros _ ->. done.
  - intros [Hy Hm]%andb_prop Hx. destruct (decide (k = k')); cbn [forallb].
    + by rewrite Hx, Hm.
    + by rewrite Hy, IH.
Qed.

Lemma nil_free_imap (f : nat -> scalar) (arr : list value) :
  forallb nil_free arr = true ->
  forallb (fun '(_, y) => nil_free y) (imap (fun i v => (f i, v)) arr) = true.
Proof.
  revert f. induction arr as [|x arr IH]; intros f; [done|]. cbn [forallb imap].
  intros [Hx Harr]%andb_prop. rewrite Hx. cbn [andb].
  apply (IH (fun i => f (S i)) Harr).
Qed.

Lemma nil_free_arrayToObj (arr : list value) :
  forallb nil_free arr = true ->
  forallb (fun '(_, y) => nil_free y) (arrayToObj arr) = true.
Proof. apply (nil_free_imap (fun i => SInt (Z.of_nat i))). Qed.

Lemma mergeBoth_nil_free arrS :
  Forall (fun item => nil_free item = true /\ merges_well item) arrS ->
  forall i arrT, forallb nil_free arrT = true ->
    exists r, mergeBoth merge i arrT arrS = Ok r /\ forallb nil_free r = true.
Proof.
  induction 1 as [|item arrS [Hitem Hwell] _ IH]; intros i arrT HarrT;
    cbn [mergeBoth].
  - by exists arrT.
  - destruct (arrT !! i) as [ti|] eqn:Hti.
    + destruct (Hwell ti) as (x & -> & Hx); [by eapply nil_free_lookup|].
      cbn [mbind result_bind]. apply IH. by apply nil_free_insert.
    + apply IH. rewrite forallb_app, HarrT. cbn. by rewrite Hitem.
Qed.

Lemma mergeIndexed_nil_free arrS :
  Forall (fun item => nil_free item = true /\ merges_well item) arrS ->
  forall i m, forallb (fun '(_, y) => nil_free y) m = true ->
    exists r, mergeIndexed merge i m arrS = Ok r /\
              forallb (fun '(_, y) => nil_free y) r = true.
Proof.
  induction 1 as [|item arrS [Hitem Hwell] _ IH]; intros i m Hm;
    cbn [mergeIndexed].
  - by exists m.
  - destruct (map_get _ m) as [tv|] eqn:Htv.
    + destruct (Hwell tv) as (x & -> & Hx); [by eapply nil_free_map_get|].
      cbn [mbind result_bind]. apply IH. by apply nil_free_map_set.
    + apply IH. by apply nil_free_map_set.
Qed.

Lemma mergeEntries_nil_free mapS :
  Forall (fun kv => nil_free kv.2 = true /\ merges_well kv.2) mapS ->
  forall m, forallb (fun '(_, y) => nil_free y) m = true ->
    exists r, mergeEntries merge m mapS = Ok r /\
              forallb (fun '(_, y) => nil_free y) r = true.
Proof.
  induction 1 as [|[k v] mapS [Hv Hwell] _ IH]; intros m Hm;
    cbn [mergeEntries].
  - by exists m.
  - cbn [snd] in Hv, Hwell. destruct (map_get k m) as [tv|] eqn:Htv.
    + destruct (Hwell tv) as (x & -> & Hx); [by eapply nil_free_map_get|].
      cbn [mbind result_bind]. apply IH. by apply nil_free_map_set.
    + apply IH. by apply nil_free_map_set.
Qed.

Lemma Forall_nil_free_and (P : value -> Prop) (l : list value) :
  forallb nil_free l = true ->
  Forall (fun x => nil_free x = true -> P x) l ->
  Forall (fun x => nil_free x = true /\ P x) l.
Proof.
  intros Hl HP. induction HP as [|x l Hx _ IH]; [constructor|].
  cbn [forallb] in Hl. apply andb_prop in Hl as [Hnx Hl].
  constructor; [split; auto|auto].
Qed.

Lemma Forall_nil_free_and_map (P : value -> Prop) (m : QSType) :
  forallb (fun '(_, y) => nil_free y) m = true ->
  Forall (fun kv => nil_free kv.2 = true -> P kv.2) m ->
  Forall (fun kv => nil_free kv.2 = true /\ P kv.2) m.
Proof.
  intros Hm HP. induction HP as [|[k x] m Hx _ IH]; [constructor|].
  cbn [forallb] in Hm. apply andb_prop in Hm as [Hnx Hm].
  constructor; [split; auto|auto].
Qed.

Lemma merge_nil_free_aux (target source : value) :
  nil_free target = true -> nil_free source = true ->
  exists r, merge target source = Ok r /\ nil_free r = true.
Proof.
  intros Ht Hs. revert source Hs target Ht.
  apply (value_ind_nested (fun s => nil_free s = true -> merges_well s)).
  - done.
  - intros s _ t Ht. destruct t as [|s'|tArr|tMap]; [done|..];
      cbn [merge kind mbind result_bind].
    + destruct s'; by eexists.
    + eexists. split; [done|]. cbn [nil_free] in *. by rewrite forallb_app, Ht.
    + destruct (map_get s tMap); eexists; (split; [done|]); [done|].
      by apply nil_free_map_set.
  - intros arrS IH Hs t Ht. cbn [nil_free] in Hs.
    pose proof (Forall_nil_free_and _ _ Hs IH) as Hall.
    destruct t as [|s'|arrT|m]; [done|..]; cbn [merge kind mbind result_bind].
    + destruct s'; eexists; (split; [done|]); cbn; by rewrite Hs.
    + destruct (mergeBoth_nil_free arrS Hall 0 arrT Ht) as (r & -> & Hr).
      by eexists.
    + destruct (mergeIndexed_nil_free arrS Hall 0 m Ht) as (r & -> & Hr).
      by eexists.
  - intros mapS IH Hs t Ht. cbn [nil_free] in Hs.
    pose proof (Forall_nil_free_and_map _ _ Hs IH) as Hall.
    destruct t as [|s'|arrT|m]; [done|..]; cbn [merge kind mbind result_bind].
    + destruct s'; eexists; (split; [done|]); cbn; by rewrite Hs.
    + destruct (mergeEntries_nil_free mapS Hall (arrayToObj arrT))
        as (r & -> & Hr); [by apply nil_free_arrayToObj|]. by eexists.
    + destruct (mergeEntries_nil_free mapS Hall m Ht) as (r & -> & Hr).
      by eexists.
Qed.

(** The merge engine panics on nil only: merging two values in which nil
    does not occur returns a value in which nil does not occur. *)
Theorem merge_nil_free (target source : value) :
  nil_free target = true -> nil_free source = true ->
  exists r, merge target source = Ok r /\ nil_free r = true.
Proof. apply merge_nil_free_aux. Qed.

Lemma merge_nil_free_witness :
  exists r,
    merge (VSlice [VStr "a"; VStr "b"]) (VMap [(SStr "c", VStr "d")]) = Ok r /\
    nil_free r = true.
Proof.
  apply (merge_nil_free (VSlice [VStr "a"; VStr "b"]) (VMap [(SStr "c", VStr "d")]));
    reflexivity.
Defined.

(** *** The value splitter completes *)

Lemma splitParts_ok d str :
  d.(parameterLimit) <> 0%Z -> exists parts, splitParts d str = Ok parts.
Proof.
  intros Hlim. unfold splitParts.
  destruct (bool_decide (_ = parameterLimit d)) eqn:Hlen; [|by eexists].
  apply bool_decide_eq_true in Hlen.
  rewrite bool_decide_eq_false_2 by lia.
  destruct (lookup_lt_is_Some_2
              (SplitN str (delimiter d) (parameterLimit d))
              (Z.to_nat (parameterLimit d - 1))) as [last ->]; [lia|].
  by eexists.
Qed.

Lemma fragments_ok d str :
  d.(parameterLimit) <> 0%Z ->
  str <> "" ->
  exists parts, fragments d str = Ok parts.
Proof.
  intros Hlim Hne. unfold fragments. destruct (ignoreQueryPrefix d).
  - destruct str; [done|]. cbn [mbind result_bind]. by apply splitParts_ok.
  - cbn [mbind result_bind]. by apply splitParts_ok.
Qed.

Lemma nil_free_strings (l : list string) :
  forallb nil_free ((fun v => VStr v) <$> l) = true.
Proof. by induction l. Qed.

Lemma parsePart_nil_free d part key val :
  d.(strictNullHandling) = false ->
  parsePart d part = Ok (key, val) -> nil_free val = true.
Proof.
  intros Hstrict. unfold parsePart.
  destruct (if bool_decide _ then _ else _) as [key' val'] eqn:Hkv.
  assert (nil_free val' = true) as Hval'.
  { destruct (bool_decide _).
    - injection Hkv as _ <-. by rewrite Hstrict.
    - injection Hkv as _ <-. destruct (comma d && _); [|done].
      apply nil_free_strings. }
  intros (wrap & _ & [= _ <-])%bind_Ok.
  destruct wrap; [|done]. cbn. by rewrite Hval'.
Qed.

Lemma combineValue_nil_free v1 v2 :
  nil_free v1 = true -> nil_free v2 = true ->
  exists c, combineValue v1 v2 = Ok c /\ forallb nil_free c = true.
Proof.
  intros H1 H2.
  destruct v1 as [|[]|a1|m1]; [done|..]; destruct v2 as [|[]|a2|m2]; try done;
    eexists; (split; [reflexivity|]); cbn in *;
    rewrite ?forallb_app; cbn; rewrite ?H1, ?H2; done.
Qed.

Lemma storePair_ok d res key val :
  Forall (fun kv => nil_free kv.2 = true) res -> nil_free val = true ->
  exists res', storePair d res (key, val) = Ok res' /\
               Forall (fun kv => nil_free kv.2 = true) res'.
Proof.
  intros Hres Hval. unfold storePair.
  pose proof (adequacy.map_set_values (fun v => nil_free v = true) key) as Hset.
  destruct (map_get key res) as [ev|] eqn:Hev; [|eexists; split; [done|auto]].
  destruct (bool_decide _); [|eexists; split; [done|auto]].
  destruct (combineValue_nil_free ev val) as (c & -> & Hc); [|done|].
  { by eapply (adequacy.map_get_values (fun v => nil_free v = true)). }
  eexists. split; [done|]. by apply Hset.
Qed.

Lemma parseParts_ok d parts res :
  d.(strictNullHandling) = false ->
  Forall (fun kv => nil_free kv.2 = true) res ->
  exists res', parseParts d parts res = Ok res' /\
               Forall (fun kv => nil_free kv.2 = true) res'.
Proof.
  intros Hstrict. revert res. induction parts as [|part parts IH]; intros res Hres;
    cbn [parseParts].
  - by exists res.
  - destruct (parseValues_facts.parsePart_total d part) as [[key val] Hkv].
    rewrite Hkv. cbn [mbind result_bind].
    destruct (storePair_ok d res key val Hres) as (res1 & -> & Hres1).
    { by eapply parsePart_nil_free. }
    cbn [mbind result_bind]. by apply IH.
Qed.

(** With strictNullHandling off and a parameterLimit other than 0, the
    value splitter completes on every non-empty input, and nil occurs in
    none of the values it returns. *)
Theorem parseValues_completes d str :
  d.(strictNullHandling) = false ->
  d.(parameterLimit) <> 0%Z ->
  str <> "" ->
  exists res, parseValues d str = Ok res /\
              Forall (fun kv => nil_free kv.2 = true) res.
Proof.
  intros Hstrict Hlim Hne. unfold parseValues.
  destruct (fragments_ok d str Hlim Hne) as [parts ->]. cbn [mbind result_bind].
  apply parseParts_ok; [done|constructor].
Qed.

Lemma parseValues_completes_witness :
  exists res, parseValues defaultDecoder "a=1&&=5&b" = Ok res /\
              Forall (fun kv => nil_free kv.2 = true) res.
Proof.
  apply (parseValues_completes defaultDecoder "a=1&&=5&b").
  - reflexivity.
  - vm_compute. discriminate.
  - discriminate.
Defined.

(** *** The key-path parser completes *)











(** *** Parse completes *)






End safety_facts.

(** ** The keys of the root *)

Module root_facts.
Import GoString GoRegexp GoStrconv goqs spec.

Lemma close_len_take s n : close_len s = None -> close_len (take n s) = None.
Proof.
  revert n. induction s as [|c s IH]; intros n; [by destruct n|].
  destruct n as [|n]; [done|]. cbn [close_len take].
  destruct (is_close c); [done|]. destruct (is_open c); [done|].
  destruct (close_len s); [done|]. intros _. by rewrite IH.
Qed.

(** The text before the leftmost bracket group holds no bracket group. *)
Lemma bracket_find_parent s i j :
  bracket_find s = Some (i, j) -> bracket_find (take i s) = None.
Proof.
  revert i j. induction s as [|c s IH]; intros i j; cbn [bracket_find]; [done|].
  destruct (if is_open c then close_len s else None) as [n|] eqn:Hn.
  - by intros [= <- <-].
  - destruct (bracket_find s) as [[i' j']|] eqn:Hf; [|done]. intros [= <- <-].
    cbn [take bracket_find]. rewrite (IH i' j' eq_refl).
    destruct (is_open c); [|done]. by rewrite close_len_take.
Qed.

Lemma has_close_found s :
  has_close s = true -> close_len s <> None \/ bracket_find s <> None.
Proof.
  induction s as [|c s IH]; [done|]. cbn [has_close close_len bracket_find].
  destruct (is_close c) eqn:Hc; [intros _; by left|]. cbn [orb].
  intros [Hl|Hf]%IH.
  - destruct (close_len s) as [n|]; [|done].
    destruct (is_open c); [by right|by left].
  - right. destruct (if is_open c then close_len s else None); [done|].
    by destruct (bracket_find s).
Qed.

Lemma last_byte_has_close c0 s :
  last_byte (String c0 s) = Some "]"%char -> c0 <> "]"%char ->
  has_close s = true.
Proof.
  revert c0. induction s as [|c1 s IH]; intros c0.
  - cbn. by intros [= ->].
  - intros Hlast Hc0. cbn [has_close]. unfold is_close.
    destruct (decide (c1 = "]"%char)) as [->|Hc1]; [done|].
    rewrite bool_decide_eq_false_2 by done. cbn [orb].
    apply (IH c1); [|done]. unfold last_byte in *.
    simpl in Hlast |- *. by rewrite Nat.sub_0_r.
Qed.

(** A text without bracket group does not both open and close with a
    bracket. *)
Lemma no_group_not_bracketed c0 s :
  bracket_find (String c0 s) = None ->
  bool_decide (c0 = "["%char)
    && bool_decide (last_byte (String c0 s) = Some "]"%char) = false.
Proof.
  intros Hf. destruct (bool_decide (c0 = "["%char)) eqn:Hopen; [|done].
  apply bool_decide_eq_true in Hopen as ->. cbn [andb].
  apply bool_decide_eq_false_2. intros Hlast.
  apply last_byte_has_close in Hlast; [|done].
  apply has_close_found in Hlast as [Hl|Hf']; cbn [bracket_find] in Hf.
  - change (is_open "[") with true in Hf. by destruct (close_len s).
  - change (is_open "[") with true in Hf.
    destruct (close_len s); [done|]. by destruct (bracket_find s).
Qed.

Lemma digits_no_dot acc s z : digits acc s = Some z -> no_dot s = true.
Proof.
  revert acc. induction s as [|c s IH]; intros acc; [done|]. cbn [digits no_dot].
  destruct (is_digit c) eqn:Hd; [|done]. intros Hs%IH. rewrite Hs, andb_true_r.
  unfold is_dot. destruct (decide (c = "."%char)) as [->|]; [done|].
  by rewrite bool_decide_eq_false_2.
Qed.

Lemma Atoi_no_dot s z : Atoi s = Some z -> no_dot s = true.
Proof.
  unfold Atoi, unsigned.
  assert (forall t, match t with "" => None | _ => digits 0 t end <> None ->
                    no_dot t = true) as Hu.
  { intros t Ht. destruct t as [|c t]; [done|].
    destruct (digits 0 (String c t)) eqn:Hd; [|done]. by eapply digits_no_dot. }
  destruct s as [|c s]; [done|].
  destruct (decide (c = "-"%char)) as [->|Hm].
  - destruct (match s with "" => None | _ => digits 0 s end) eqn:Hs; [|done].
    intros _. cbn [no_dot]. apply Hu. by rewrite Hs.
  - destruct (decide (c = "+"%char)) as [->|Hp].
    + destruct (match s with "" => None | _ => digits 0 s end) eqn:Hs; [|done].
      intros _. cbn [no_dot]. apply Hu. by rewrite Hs.
    + intros Hz. apply (Hu (String c s)).
      destruct c as [[] [] [] [] [] [] [] []]; try done;
        by destruct (digits 0 _).
Qed.

Lemma replace_go_no_dot fuel s :
  no_dot (replace_go fuel s "%2E" ".") = true ->
  replace_go fuel s "%2E" "." = s.
Proof.
  revert s. induction fuel as [|fuel IH]; intros s; cbn [replace_go]; [done|].
  destruct s as [|c s]; [done|].
  destruct (HasPrefix (String c s) "%2E"); [done|].
  cbn [no_dot]. intros [_ Hs]%andb_prop. by rewrite IH.
Qed.

(** The parent of a flat key is wrapped under a string key. *)
Lemma wrapSegment_parent d root leaf v :
  bracket_find root = None ->
  wrapSegment d root leaf = Ok v ->
  exists k, v = VMap [(SStr k, leaf)].
Proof.
  intros Hf. unfold wrapSegment.
  destruct (bool_decide (root = "[]")) eqn:Hroot.
  { apply bool_decide_eq_true in Hroot as ->. done. }
  cbn [andb]. destruct root as [|c0 root']; [done|].
  rewrite (no_group_not_bracketed c0 root' Hf).
  destruct (negb (parseArrays d) && _); [intros [= <-]; by eexists|].
  destruct (Atoi _) as [index|] eqn:Hindex; [|intros [= <-]; by eexists].
  destruct (bool_decide (String c0 root' <> _)) eqn:Hneq;
    [|intros [= <-]; by eexists].
  apply bool_decide_eq_true in Hneq. exfalso. apply Hneq.
  destruct (decodeDotInKeys d); [|done].
  apply Atoi_no_dot in Hindex. symmetry. by apply replace_go_no_dot.
Qed.

Lemma segments_parent d key :
  (0 < d.(depth))%Z ->
  exists root rest, segments d key = root :: rest /\ bracket_find root = None.
Proof.
  intros Hdepth. unfold segments.
  set (key' := if allowDots d then dot_replace key else key).
  destruct (bracket_find key') as [[i j]|] eqn:Hf.
  - rewrite bool_decide_eq_true_2 by done. eexists _, _. split; [done|].
    unfold slice. rewrite Nat.sub_0_r. cbn [drop fst].
    by eapply bracket_find_parent.
  - by eexists _, _.
Qed.

Lemma parseKeys_string_key d key val m :
  (0 < d.(depth))%Z ->
  parseKeys d key val = Ok m -> exists k v, m = [(SStr k, v)].
Proof.
  intros Hdepth. unfold parseKeys.
  destruct (segments_parent d key Hdepth) as (root & rest & -> & Hroot).
  cbn [wrapAll]. intros (v & (leaf & _ & Hw)%bind_Ok & Hm)%bind_Ok.
  apply (wrapSegment_parent d root leaf v Hroot) in Hw as [k ->].
  injection Hm as <-. by eexists _, _.
Qed.

Lemma string_keyed_map_set k v (m : QSType) :
  string_keyed m -> string_keyed (map_set (SStr k) v m).
Proof.
  unfold string_keyed. rewrite keys_map_set.
  destruct (map_get (SStr k) m); [done|]. intros Hm.
  apply Forall_app. split; [done|]. repeat constructor. by eexists.
Qed.

Lemma mergePairs_string_keyed d pairs (m : QSType) t :
  (0 < d.(depth))%Z -> string_keyed m ->
  mergePairs d pairs (VMap m) = Ok t -> string_keyed (mapOf t).
Proof.
  intros Hdepth. revert m. induction pairs as [|[k v] pairs IH]; intros m Hm;
    cbn [mergePairs].
  - by intros [= <-].
  - intros (newObj & Hnew & (t' & Ht & Hrest)%bind_Ok)%bind_Ok.
    apply (parseKeys_string_key d k v newObj Hdepth) in Hnew as (k' & v' & ->).
    cbn [merge kind mbind result_bind mergeEntries] in Ht.
    destruct (map_get (SStr k') m) as [tv|].
    + apply fmap_Ok in Ht as (m' & (x & _ & [= <-])%bind_Ok & ->).
      eapply IH; [|done]. by apply string_keyed_map_set.
    + injection Ht as <-. eapply IH; [|done]. by apply string_keyed_map_set.
Qed.

Lemma convertEntries_string_keyed (obj ret0 ret : QSType) :
  string_keyed obj -> string_keyed ret0 ->
  convertEntries obj ret0 = Ok ret -> string_keyed ret.
Proof.
  revert ret0. induction obj as [|[k v] obj IH]; intros ret0 Hobj Hret0;
    cbn [convertEntries].
  - by intros [= <-].
  - intros (v' & _ & Hrest)%bind_Ok. unfold string_keyed, keys in Hobj.
    rewrite fmap_cons in Hobj. apply Forall_cons_1 in Hobj as [[s Hs] Hobj].
    cbn [fst] in Hs. subst k. eapply IH; [done| |done].
    by apply string_keyed_map_set.
Qed.

(** With a positive depth every key of the mapping Parse returns is a
    string: integer keys occur below the root only. *)
Theorem Parse_root_keys_are_strings d input seed ret :
  (0 < d.(depth))%Z ->
  Parse d input seed = Ok ret ->
  Forall (fun k => exists s, k = SStr s) (keys ret).
Proof.
  intros Hdepth. unfold Parse. destruct (bool_decide _).
  - intros [= <-]. constructor.
  - intros (tempObj & _ & (t & Ht & Hret)%bind_Ok)%bind_Ok.
    eapply (convertEntries_string_keyed (mapOf t) []); [|constructor|done].
    eapply mergePairs_string_keyed; [done| |done]. constructor.
Qed.

Lemma Parse_root_keys_are_strings_witness :
  Forall (fun k => exists s, k = SStr s)
         (keys [(SStr "0", VStr "x"); (SStr "a", VSlice [VStr "y"])]).
Proof.
  apply (Parse_root_keys_are_strings defaultDecoder "0=x&a[0]=y" []).
  - reflexivity.
  - vm_compute. reflexivity.
Defined.

End root_facts.

(** ** Escaping and unescaping *)

Module escape_facts.
Import GoString GoUrl goqs encoder spec.

Lemma HasPrefix_nil s : HasPrefix s "" = true.
Proof. by destruct s. Qed.

Lemma replace_go_plus fuel s new :
  (String.length s <= fuel)%nat -> replace_go fuel s "+" new = plus_to new s.
Proof.
  revert s. induction fuel as [|fuel IH]; intros s Hlen.
  - destruct s; [done|cbn in Hlen; lia].
  - destruct s as [|c s]; [done|]. cbn [replace_go plus_to HasPrefix].
    cbn [String.length] in Hlen.
    destruct (decide (c = "+"%char)); rewrite ?HasPrefix_nil;
      cbn [drop String.length]; by rewrite IH by lia.
Qed.

Lemma ReplaceAll_plus s new : ReplaceAll s "+" new = plus_to new s.
Proof. by apply replace_go_plus. Qed.

Lemma append_assoc (s t u : string) : (s +:+ t) +:+ u = s +:+ (t +:+ u).
Proof.
  induction s as [|c s IH]; [done|].
  change ((String c s +:+ t) +:+ u) with (String c ((s +:+ t) +:+ u)).
  change (String c s +:+ (t +:+ u)) with (String c (s +:+ (t +:+ u))).
  by rewrite IH.
Qed.

Lemma plus_to_app new s t : plus_to new (s +:+ t) = plus_to new s +:+ plus_to new t.
Proof.
  induction s as [|c s IH]; [done|].
  change (String c s +:+ t) with (String c (s +:+ t)). cbn [plus_to].
  destruct (decide (c = "+"%char)); rewrite IH; [|done].
  by rewrite append_assoc.
Qed.

(** One escaped byte is read back, in either space convention. *)
Lemma unescape_byte (space : bool) c rest r :
  QueryUnescape rest = Some r ->
  QueryUnescape
    (plus_to " " (plus_to (if space then "%20" else "+") (escapeByte c)) +:+ rest)
    = Some (String c r).
Proof.
  intros Hrest.
  destruct space, c as [[] [] [] [] [] [] [] []];
    cbv -[QueryUnescape]; cbn; by rewrite Hrest.
Qed.

Lemma unescape_escape (space : bool) s :
  QueryUnescape
    (plus_to " " (plus_to (if space then "%20" else "+") (QueryEscape s)))
    = Some s.
Proof.
  induction s as [|c s IH]; [done|]. cbn [QueryEscape].
  rewrite !plus_to_app. by apply unescape_byte.
Qed.

Lemma plus_to_plus s : plus_to "+" s = s.
Proof.
  induction s as [|c s IH]; [done|]. cbn [plus_to].
  destruct (decide (c = "+"%char)) as [->|]; cbn; by rewrite IH.
Qed.

Lemma decodeURI_urlEncode_aux (e : Encoder) (s : string) :
  decodeURI (urlEncode e s) = s.
Proof.
  unfold decodeURI, urlEncode. rewrite !ReplaceAll_plus.
  destruct (bool_decide (format e = "RFC1738")).
  - rewrite <- (plus_to_plus (QueryEscape s)).
    by rewrite (unescape_escape false s).
  - by rewrite (unescape_escape true s).
Qed.

(** What the encoder escapes, the decoder reads back: decodeURI undoes
    urlEncode on every byte string, in both space conventions, and so it
    undoes encodeValue when encoding is on. *)
Theorem decodeURI_urlEncode (e : Encoder) (s : string) :
  decodeURI (urlEncode e s) = s /\
  decodeURI (encodeValue e s) = if e.(encode) then s else decodeURI s.
Proof.
  pose proof (decodeURI_urlEncode_aux e s) as Hround.
  split; [done|]. unfold encodeValue. by destruct (encode e).
Qed.

End escape_facts.

(** ** Sequences in the merge engine *)

Module sequence_facts.
Import goqs spec.

Lemma mergeIndexed_as_entries rec (arrS : list value) (i : nat) (m : QSType) :
  mergeIndexed rec i m arrS =
  mergeEntries rec m (imap (fun j v => (SInt (Z.of_nat (i + j)), v)) arrS).
Proof.
  revert i m. induction arrS as [|item arrS IH]; intros i m; [done|].
  cbn [mergeIndexed imap mergeEntries]. rewrite Nat.add_0_r.
  assert (forall m', mergeIndexed rec (S i) m' arrS =
            mergeEntries rec m'
              (imap ((fun j v => (SInt (Z.of_nat (i + j)), v)) ∘ S) arrS)) as Hrest.
  { intros m'. rewrite IH. f_equal. apply imap_ext. intros j v _. cbn.
    do 2 f_equal. lia. }
  destruct (map_get _ m) as [tv|]; [|apply Hrest].
  destruct (rec tv item) as [x|]; [|done]. cbn [mbind result_bind]. apply Hrest.
Qed.

(** Merging a sequence into a mapping is merging the mapping that
    arrayToObj makes of the sequence: the two loops of merge agree. *)
Theorem merge_map_slice_as_map (m : QSType) (arrS : list value) :
  merge (VMap m) (VSlice arrS) = merge (VMap m) (VMap (arrayToObj arrS)).
Proof.
  cbn [merge kind mbind result_bind]. f_equal.
  apply (mergeIndexed_as_entries merge arrS 0 m).
Qed.

Lemma mergeBoth_spec rec (arrS : list value) :
  forall i arrT l,
    (i <= length arrT)%nat ->
    mergeBoth rec i arrT arrS = Ok l ->
    length l = Nat.max (length arrT) (i + length arrS) /\
    (forall j, (j < i)%nat -> l !! j = arrT !! j) /\
    (forall j item, arrS !! j = Some item ->
       match arrT !! (i + j)%nat with
       | Some t => exists x, rec t item = Ok x /\ l !! (i + j)%nat = Some x
       | None => l !! (i + j)%nat = Some item
       end) /\
    (forall j, (i + length arrS <= j)%nat -> l !! j = arrT !! j).
Proof.
  induction arrS as [|item rest IH]; intros i arrT l Hi; cbn [mergeBoth].
  - intros [= <-]. cbn [length]. split_and!; [lia|done|done|done].
  - destruct (arrT !! i) as [ti|] eqn:Hti.
    + intros (x & Hx & Hrest)%bind_Ok.
      pose proof (lookup_lt_Some _ _ _ Hti) as Hlt.
      apply IH in Hrest as (Hlen & Hlow & Hmid & Hhigh);
        [|rewrite length_insert; lia].
      rewrite length_insert in Hlen. cbn [length]. split_and!.
      * lia.
      * intros j Hj. rewrite Hlow by lia. by rewrite list_lookup_insert_ne by lia.
      * intros [|j] it Hit.
        -- injection Hit as <-. rewrite Nat.add_0_r, Hti. exists x.
           split; [done|]. rewrite Hlow by lia.
           by rewrite list_lookup_insert_eq.
        -- specialize (Hmid j it Hit).
           rewrite list_lookup_insert_ne in Hmid by lia.
           by replace (i + S j)%nat with (S i + j)%nat by lia.
      * intros j Hj. rewrite Hhigh by lia. by rewrite list_lookup_insert_ne by lia.
    + apply lookup_ge_None in Hti. assert (i = length arrT) as Hieq by lia.
      intros Hrest. apply IH in Hrest as (Hlen & Hlow & Hmid & Hhigh);
        [|rewrite length_app; cbn; lia].
      rewrite length_app in Hlen. cbn [length] in *. split_and!.
      * lia.
      * intros j Hj. rewrite Hlow by lia. by rewrite lookup_app_l by lia.
      * intros [|j] it Hit.
        -- injection Hit as <-. rewrite Nat.add_0_r.
           rewrite (lookup_ge_None_2 arrT i) by lia. rewrite Hlow by lia.
           rewrite lookup_app_r by lia. by replace (i - length arrT)%nat with 0%nat by lia.
        -- specialize (Hmid j it Hit).
           rewrite (lookup_ge_None_2 (arrT ++ [item])) in Hmid
             by (rewrite length_app; cbn; lia).
           rewrite (lookup_ge_None_2 arrT) by lia.
           by replace (i + S j)%nat with (S i + j)%nat by lia.
      * intros j Hj. rewrite Hhigh by lia.
        rewrite (lookup_ge_None_2 arrT) by lia.
        apply lookup_ge_None_2. rewrite length_app. cbn. lia.
Qed.

(** Merging a sequence into a sequence works position by position: where
    both have an element the result holds their merge, where only one has
    an element the result holds that element, and the result is as long
    as the longer of the two. *)
Theorem merge_slice_slice (arrT arrS : list value) (r : value) :
  merge (VSlice arrT) (VSlice arrS) = Ok r ->
  exists l,
    r = VSlice l /\
    length l = Nat.max (length arrT) (length arrS) /\
    forall j,
      match arrT !! j, arrS !! j with
      | Some t, Some s => exists x, merge t s = Ok x /\ l !! j = Some x
      | Some t, None => l !! j = Some t
      | None, Some s => l !! j = Some s
      | None, None => l !! j = None
      end.
Proof.
  cbn [merge kind mbind result_bind]. intros (l & Hl & ->)%fmap_Ok.
  apply mergeBoth_spec in Hl as (Hlen & _ & Hmid & Hhigh); [|lia].
  exists l. split_and!; [done|done|]. intros j.
  destruct (arrS !! j) as [s|] eqn:Hs.
  - specialize (Hmid j s Hs). cbn in Hmid. by destruct (arrT !! j).
  - apply lookup_ge_None in Hs. rewrite (Hhigh j) by (cbn; lia).
    by destruct (arrT !! j).
Qed.

Lemma merge_slice_slice_witness :
  exists l,
    VSlice [VSlice [VStr "a"; VStr "x"]; VStr "b"] = VSlice l /\
    length l = Nat.max (length [VStr "a"; VStr "b"]) (length [VStr "x"]) /\
    forall j,
      match [VStr "a"; VStr "b"] !! j, [VStr "x"] !! j with
      | Some t, Some s => exists x, merge t s = Ok x /\ l !! j = Some x
      | Some t, None => l !! j = Some t
      | None, Some s => l !! j = Some s
      | None, None => l !! j = None
      end.
Proof.
  apply (merge_slice_slice [VStr "a"; VStr "b"] [VStr "x"]).
  vm_compute. reflexivity.
Defined.

End sequence_facts.

(** ** When the visiting order does not matter *)

Module order_facts.
Import goqs spec.

Lemma Forall2_perm {A B} (R : A -> B -> Prop) (l1 l1' : list A) (l2 : list B) :
  l1 ≡ₚ l1' -> Forall2 R l1 l2 ->
  exists l2', l2 ≡ₚ l2' /\ Forall2 R l1' l2'.
Proof.
  intros Hp. revert l2. induction Hp as [|x l1 l1' _ IH|x y l1|l1 l1' l1'' _ IH1 _ IH2];
    intros l2 Hall.
  - apply Forall2_nil_inv_l in Hall as ->. by exists [].
  - apply Forall2_cons_inv_l in Hall as (y & l2t & Hy & Hall & ->).
    destruct (IH _ Hall) as (l2' & Hp' & Hall').
    exists (y :: l2'). split; [by constructor|by constructor].
  - apply Forall2_cons_inv_l in Hall as (b & l2t & Hb & Hall & ->).
    apply Forall2_cons_inv_l in Hall as (a & l2t' & Ha & Hall & ->).
    exists (a :: b :: l2t'). split; [by constructor|by repeat constructor].
  - destruct (IH1 _ Hall) as (l2' & Hp1 & Hall1).
    destruct (IH2 _ Hall1) as (l2'' & Hp2 & Hall2).
    exists l2''. split; [by etransitivity|done].
Qed.

(** Flat pairs whose root keys are new are appended to the root one after
    the other. *)
Lemma mergePairs_fresh d pairs entries (m : QSType) :
  Forall2 (fun kv e => parseKeys d kv.1 kv.2 = Ok [e]) pairs entries ->
  NoDup (keys m ++ entries.*1) ->
  mergePairs d pairs (VMap m) = Ok (VMap (m ++ entries)).
Proof.
  intros Hall. revert m.
  induction Hall as [|[k v] e pairs entries He _ IH]; intros m Hnd;
    cbn [mergePairs].
  - by rewrite app_nil_r.
  - cbn [fst snd] in He. rewrite He. cbn [mbind result_bind].
    destruct e as [ke ve].
    assert (map_get ke m = None) as Hfresh.
    { apply map_get_None. apply list.NoDup_app in Hnd as (_ & Hdisj & _).
      intros Hin. apply (Hdisj ke Hin). rewrite fmap_cons. left. }
    cbn [merge kind mbind result_bind mergeEntries]. rewrite Hfresh.
    cbn [fmap result_fmap mbind result_bind]. rewrite map_set_fresh by done.
    rewrite IH.
    + by rewrite <- app_assoc.
    + unfold keys in *. rewrite fmap_app, <- app_assoc. by rewrite fmap_cons in Hnd.
Qed.

Lemma convertEntries_fresh (obj new ret0 : QSType) :
  Forall2 (fun e e' => e'.1 = e.1 /\ objToArray e.2 = Ok e'.2) obj new ->
  NoDup (keys ret0 ++ keys obj) ->
  convertEntries obj ret0 = Ok (ret0 ++ new).
Proof.
  intros Hall. revert ret0.
  induction Hall as [|[k v] [k' v'] obj new [Hk Hv] _ IH]; intros ret0 Hnd;
    cbn [convertEntries].
  - by rewrite app_nil_r.
  - cbn [fst snd] in Hk, Hv. subst k'. rewrite Hv. cbn [mbind result_bind].
    assert (map_get k ret0 = None) as Hfresh.
    { apply map_get_None. apply list.NoDup_app in Hnd as (_ & Hdisj & _).
      intros Hin. apply (Hdisj k Hin). unfold keys. rewrite fmap_cons. left. }
    rewrite map_set_fresh by done. rewrite IH.
    + by rewrite <- app_assoc.
    + unfold keys in *. rewrite fmap_app, <- app_assoc. by rewrite fmap_cons in Hnd.
Qed.

Lemma Forall2_keys (entries expected : QSType) :
  Forall2 (fun e e' => e'.1 = e.1 /\ objToArray e.2 = Ok e'.2) entries expected ->
  keys expected = keys entries.
Proof.
  unfold keys. induction 1 as [|e e' entries expected [He _] _ IH]; [done|].
  rewrite !fmap_cons. by rewrite He, IH.
Qed.

Lemma Parse_distinct_roots_aux d input seed tempObj entries expected :
  input <> "" ->
  parseValues d input = Ok tempObj ->
  Forall2 (fun kv e => parseKeys d kv.1 kv.2 = Ok [e]) tempObj entries ->
  NoDup (keys entries) ->
  Forall2 (fun e e' => e'.1 = e.1 /\ objToArray e.2 = Ok e'.2) entries expected ->
  exists ret, Parse d input seed = Ok ret /\ ret ≡ₚ expected.
Proof.
  intros Hne Hv Hentries Hnd Hexpected. unfold Parse.
  rewrite bool_decide_eq_false_2 by (by destruct input).
  rewrite Hv. cbn [mbind result_bind].
  pose proof (range_order_perm seed tempObj) as Horder. symmetry in Horder.
  destruct (Forall2_perm _ _ _ _ Horder Hentries)
    as (entries' & Hp & Hentries').
  destruct (Forall2_perm _ _ _ _ Hp Hexpected)
    as (expected' & Hp' & Hexpected').
  assert (NoDup (keys entries')) as Hnd'.
  { unfold keys in *. by rewrite <- Hp. }
  rewrite (mergePairs_fresh d _ entries' []) by done.
  cbn [mbind result_bind mapOf app].
  rewrite (convertEntries_fresh entries' expected' []) by done.
  exists expected'. by split.
Qed.

(** When the flat pairs of an input lead to pairwise distinct root keys,
    Parse returns the same mapping in every visiting order: each pair's
    single-path value, passed through objToArray, under its root key.  The
    results of two runs differ at most in the order in which the entries
    are stored. *)
Theorem Parse_distinct_roots d input seed tempObj entries expected :
  input <> "" ->
  parseValues d input = Ok tempObj ->
  Forall2 (fun kv e => parseKeys d kv.1 kv.2 = Ok [e]) tempObj entries ->
  NoDup (keys entries) ->
  Forall2 (fun e e' => e'.1 = e.1 /\ objToArray e.2 = Ok e'.2) entries expected ->
  exists ret, Parse d input seed = Ok ret /\ ret ≡ₚ expected.
Proof. apply Parse_distinct_roots_aux. Qed.

Lemma Parse_distinct_roots_witness :
  exists ret,
    Parse defaultDecoder "a[0]=x&b=y" [1%nat] = Ok ret /\
    ret ≡ₚ [(SStr "a", VSlice [VStr "x"]); (SStr "b", VStr "y")].
Proof.
  apply (Parse_distinct_roots defaultDecoder "a[0]=x&b=y" [1%nat]
           [("a[0]", VStr "x"); ("b", VStr "y")]
           [(SStr "a", VMap [(SInt 0, VStr "x")]); (SStr "b", VStr "y")]).
  - discriminate.
  - vm_compute. reflexivity.
  - repeat constructor.
  - apply (bool_decide_unpack _). vm_compute. exact I.
  - repeat constructor.
Defined.

End order_facts.

(** ** Flat input: fragments that hold no special byte *)

Module flat_facts.
Import GoString goqs spec.

Lemma app_cons c (s t : string) : String c s +:+ t = String c (s +:+ t).
Proof. done. Qed.

Lemma has_byte_plain c0 s :
  plain_byte c0 = false -> plain s = true -> has_byte c0 s = false.
Proof.
  intros Hc0. induction s as [|c s IH]; [done|]. cbn [plain has_byte].
  intros [Hc Hs]%andb_true_iff. rewrite (IH Hs), orb_false_r.
  apply bool_decide_eq_false. congruence.
Qed.

Lemma has_byte_app c0 s t : has_byte c0 (s +:+ t) = has_byte c0 s || has_byte c0 t.
Proof.
  induction s as [|c s IH]; [done|]. rewrite app_cons. cbn [has_byte].
  by rewrite IH, orb_assoc.
Qed.

Lemma find_no_byte c0 sub s : has_byte c0 s = false -> find s (String c0 sub) = None.
Proof.
  induction s as [|c s IH]; [done|]. cbn [has_byte find HasPrefix].
  intros [Hc Hs]%orb_false_iff. apply bool_decide_eq_false in Hc.
  destruct (decide (c = c0)); [done|]. by rewrite (IH Hs).
Qed.

Lemma find_app_byte k c0 rest :
  has_byte c0 k = false -> find (k +:+ String c0 rest) (String c0 "") = Some (String.length k).
Proof.
  induction k as [|c k IH].
  - intros _. change ("" +:+ String c0 rest) with (String c0 rest).
    cbn [find HasPrefix]. rewrite escape_facts.HasPrefix_nil.
    by destruct (decide (c0 = c0)).
  - rewrite app_cons. cbn [has_byte find HasPrefix String.length].
    intros [Hc Hk]%orb_false_iff. apply bool_decide_eq_false in Hc.
    destruct (decide (c = c0)); [done|]. by rewrite (IH Hk).
Qed.

Lemma take_app k t : take (String.length k) (k +:+ t) = k.
Proof.
  induction k as [|c k IH]; [done|]. rewrite app_cons. cbn [String.length take].
  by rewrite IH.
Qed.

Lemma drop_app k t : drop (String.length k) (k +:+ t) = t.
Proof. induction k as [|c k IH]; [done|]. rewrite app_cons. apply IH. Qed.

Lemma plus_to_id new s : has_byte "+" s = false -> plus_to new s = s.
Proof.
  induction s as [|c s IH]; [done|]. cbn [has_byte plus_to].
  intros [Hc Hs]%orb_false_iff. apply bool_decide_eq_false in Hc.
  destruct (decide (c = "+"%char)); [done|]. by rewrite (IH Hs).
Qed.

Lemma QueryUnescape_id s :
  has_byte "%" s = false -> has_byte "+" s = false -> GoUrl.QueryUnescape s = Some s.
Proof.
  induction s as [|c s IH]; [done|]. cbn [has_byte GoUrl.QueryUnescape].
  intros [Hc Hs]%orb_false_iff [Hc' Hs']%orb_false_iff.
  apply bool_decide_eq_false in Hc, Hc'.
  destruct (decide (c = "%"%char)); [done|].
  destruct (decide (c = "+"%char)); [done|]. by rewrite (IH Hs Hs').
Qed.

Lemma decodeURI_id s :
  has_byte "%" s = false -> has_byte "+" s = false -> decodeURI s = s.
Proof.
  intros Hp Hq. unfold decodeURI. rewrite escape_facts.ReplaceAll_plus.
  rewrite (plus_to_id _ _ Hq). by rewrite (QueryUnescape_id _ Hp Hq).
Qed.

Lemma Index_no_byte c0 sub s : has_byte c0 s = false -> Index s (String c0 sub) = (-1)%Z.
Proof. intros H. unfold Index. by rewrite (find_no_byte _ _ _ H). Qed.

Lemma Contains_no_byte c0 sub s : has_byte c0 s = false -> Contains s (String c0 sub) = false.
Proof. intros H. unfold Contains. by rewrite (Index_no_byte _ _ _ H). Qed.

Lemma has_byte_pair c0 k v :
  c0 <> "="%char -> has_byte c0 k = false -> has_byte c0 v = false ->
  has_byte c0 (k +:+ "=" +:+ v) = false.
Proof.
  intros Hne Hk Hv. rewrite has_byte_app, Hk.
  change ("=" +:+ v) with (String "=" v). cbn [has_byte]. rewrite Hv.
  rewrite orb_false_r. cbn [orb]. apply bool_decide_eq_false. congruence.
Qed.

(** A fragment [k=v] without brackets, and without = in [k], is read as
    the pair of the decoded [k] and the decoded [v]. *)
Lemma parsePart_pair d k v :
  has_byte "=" k = false ->
  has_byte "]" (k +:+ "=" +:+ v) = false ->
  has_byte "[" (k +:+ "=" +:+ v) = false ->
  parsePart d (k +:+ "=" +:+ v) =
    Ok (decodeURI k,
        if comma d && Contains (decodeURI v) ","
        then VSlice (split (decodeURI v) ",")
        else VStr (decodeURI v)).
Proof.
  intros Hk Hclose Hopen. unfold parsePart.
  rewrite (Index_no_byte "]" "=") by done.
  rewrite (Contains_no_byte "[" "]=") by done.
  cbv zeta. rewrite (bool_decide_eq_true_2 (-1 = -1)%Z) by done.
  unfold Index. change ("=" +:+ v) with (String "=" v).
  rewrite (find_app_byte k "=" v) by done.
  rewrite bool_decide_eq_false_2 by lia.
  unfold slice, slice_from. cbn [drop]. rewrite Nat2Z.id, Nat.sub_0_r, take_app.
  replace (Z.to_nat (Z.of_nat (String.length k) + 1)) with (S (String.length k)) by lia.
  rewrite <- parseValues_facts.drop_S, drop_app. cbn [drop]. done.
Qed.

Lemma parsePart_flat d k v :
  plain k = true -> plain v = true ->
  parsePart d (k +:+ "=" +:+ v) = Ok (k, VStr v).
Proof.
  intros Hk Hv.
  rewrite parsePart_pair
    by (try apply has_byte_pair; try done; by apply has_byte_plain).
  rewrite !decodeURI_id by (by apply has_byte_plain).
  rewrite (Contains_no_byte "," "") by (by apply has_byte_plain).
  by rewrite andb_false_r.
Qed.

(** Fragments that lead to pairwise distinct keys are stored one after
    the other. *)
Lemma parseParts_fresh d parts kvs res :
  Forall2 (fun part kv => parsePart d part = Ok kv) parts kvs ->
  NoDup (res.*1 ++ kvs.*1) ->
  parseParts d parts res = Ok (res ++ kvs).
Proof.
  intros Hall. revert res.
  induction Hall as [|part [k v] parts kvs Hpart _ IH]; intros res Hnd.
  - cbn. by rewrite app_nil_r.
  - cbn [parseParts]. rewrite Hpart. cbn [mbind result_bind storePair].
    assert (map_get k res = None) as Hfresh.
    { apply map_get_None. apply list.NoDup_app in Hnd as (_ & Hdisj & _).
      intros Hin. apply (Hdisj k Hin). left. }
    rewrite Hfresh, map_set_fresh by done. cbn [mbind result_bind]. rewrite IH.
    + by rewrite <- app_assoc.
    + rewrite fmap_app, <- app_assoc. done.
Qed.

Lemma length_append (s t : string) :
  String.length (s +:+ t) = (String.length s + String.length t)%nat.
Proof.
  induction s as [|c s IH]; [done|]. rewrite app_cons. cbn [String.length].
  by rewrite IH.
Qed.

Lemma Join_cons x y rest :
  Join (x :: y :: rest) "&" = x +:+ String "&" (Join (y :: rest) "&").
Proof. done. Qed.

Lemma length_Join parts :
  (length parts - 1 <= String.length (Join parts "&"))%nat.
Proof.
  induction parts as [|x [|y rest] IH]; [cbn; lia..|].
  rewrite Join_cons, length_append. cbn [String.length length] in *. lia.
Qed.

Lemma Join_head c p parts :
  exists rest, Join (String c p :: parts) "&" = String c rest.
Proof. destruct parts; cbn [Join]; rewrite ?app_cons; by eexists. Qed.

Lemma cut_go_Join cuts parts :
  Forall (fun p => has_byte "&" p = false) parts ->
  parts <> [] ->
  (length parts <= S cuts)%nat ->
  GoSplit.cut_go cuts (Join parts "&") "&" = parts.
Proof.
  intros Hall. revert cuts.
  induction Hall as [|x [|y rest] Hx Hrest IH]; intros cuts Hne Hlen; [done| |].
  - cbn [Join]. destruct cuts; [done|]. cbn [GoSplit.cut_go].
    by rewrite (find_no_byte _ _ _ Hx).
  - rewrite Join_cons. destruct cuts as [|cuts]; [cbn in Hlen; lia|].
    cbn [GoSplit.cut_go]. rewrite (find_app_byte _ _ _ Hx), take_app.
    replace (String.length x + String.length "&")%nat with (S (String.length x))
      by (cbn; lia).
    rewrite <- parseValues_facts.drop_S, drop_app. cbn [drop].
    rewrite IH; [done|done|]. cbn [length] in *. lia.
Qed.

Lemma SplitN_Join parts (n : Z) :
  Forall (fun p => has_byte "&" p = false) parts ->
  parts <> [] ->
  (n < 0 \/ Z.of_nat (length parts) <= n)%Z ->
  GoSplit.SplitN (Join parts "&") "&" n = parts.
Proof.
  intros Hall Hne Hn. unfold GoSplit.SplitN.
  assert (0 < length parts)%nat by (destruct parts; [done|cbn; lia]).
  rewrite bool_decide_eq_false_2 by lia.
  rewrite (bool_decide_eq_false_2 ("&" = "")) by done.
  pose proof (length_Join parts).
  apply cut_go_Join; [done..|].
  case_bool_decide; lia.
Qed.

Lemma Cut_before_no_byte p : has_byte "&" p = false -> Cut_before p "&" = p.
Proof. intros Hp. unfold Cut_before. by rewrite (find_no_byte _ _ _ Hp). Qed.

(** Joining fragments that hold no & and splitting the text again gives
    the fragments back, as long as the parameter limit admits them all. *)
Lemma splitParts_Join d parts :
  d.(delimiter) = "&" ->
  Forall (fun p => has_byte "&" p = false) parts ->
  parts <> [] ->
  (d.(parameterLimit) < 0 \/ Z.of_nat (length parts) <= d.(parameterLimit))%Z ->
  splitParts d (Join parts "&") = Ok parts.
Proof.
  intros Hd Hall Hne Hn. unfold splitParts. rewrite Hd, SplitN_Join by done.
  assert (0 < length parts)%nat by (destruct parts; [done|cbn; lia]).
  case_bool_decide as Hlen; [|done].
  rewrite bool_decide_eq_false_2 by lia.
  destruct (parts !! Z.to_nat (parameterLimit d - 1)) as [last|] eqn:Hlast.
  - f_equal. apply list_insert_id. rewrite Hlast. f_equal. symmetry.
    apply Cut_before_no_byte.
    by apply (proj1 (list.Forall_forall _ _) Hall), (list_elem_of_lookup_2 _ _ _ Hlast).
  - apply lookup_ge_None in Hlast. lia.
Qed.

(** The same with the query prefix: a leading ? is dropped when the
    decoder ignores it, and the first fragment starts with another byte. *)
Lemma fragments_Join d (mark : bool) c p parts :
  d.(delimiter) = "&" ->
  Forall (fun p => has_byte "&" p = false) (String c p :: parts) ->
  (d.(parameterLimit) < 0
   \/ Z.of_nat (length (String c p :: parts)) <= d.(parameterLimit))%Z ->
  c <> "?"%char ->
  (mark = true -> d.(ignoreQueryPrefix) = true) ->
  fragments d (if mark then "?" +:+ Join (String c p :: parts) "&"
               else Join (String c p :: parts) "&")
    = Ok (String c p :: parts).
Proof.
  intros Hd Hall Hn Hc Hmark. unfold fragments.
  destruct (Join_head c p parts) as [rest Hrest].
  destruct mark.
  - rewrite (Hmark eq_refl). change ("?" +:+ ?s) with (String "?" s).
    destruct (decide ("?"%char = "?"%char)); [|done].
    cbn [mbind result_bind]. by apply splitParts_Join.
  - destruct (ignoreQueryPrefix d).
    + rewrite Hrest. destruct (decide (c = "?"%char)); [done|].
      rewrite <- Hrest. cbn [mbind result_bind]. by apply splitParts_Join.
    + cbn [mbind result_bind]. by apply splitParts_Join.
Qed.

Lemma dot_go_id s : has_byte "." s = false -> GoRegexp.dot_go false s = s.
Proof.
  induction s as [|c s IH]; [done|]. cbn [has_byte GoRegexp.dot_go andb].
  intros [Hc Hs]%orb_false_iff. unfold GoRegexp.is_dot. rewrite Hc. cbn [andb].
  by rewrite (IH Hs).
Qed.

Lemma bracket_find_None s : has_byte "[" s = false -> GoRegexp.bracket_find s = None.
Proof.
  induction s as [|c s IH]; [done|]. cbn [has_byte GoRegexp.bracket_find].
  intros [Hc Hs]%orb_false_iff. unfold GoRegexp.is_open. by rewrite Hc, (IH Hs).
Qed.

Lemma replace_go_id fuel s :
  has_byte "%" s = false -> replace_go fuel s "%2E" "." = s.
Proof.
  revert s. induction fuel as [|fuel IH]; intros s; [done|].
  destruct s as [|c s]; [done|]. cbn [has_byte replace_go HasPrefix].
  intros [Hc Hs]%orb_false_iff. apply bool_decide_eq_false in Hc.
  destruct (decide (c = "%"%char)); [done|]. by rewrite (IH _ Hs).
Qed.

(** A non-empty key without [ is one segment and stays a string key, when
    neither the dot notation nor the decoding of dots touches it. *)
Lemma parseKeys_unbracketed d k v :
  k <> "" -> has_byte "[" k = false ->
  (allowDots d = false \/ has_byte "." k = false) ->
  (decodeDotInKeys d = false \/ has_byte "%" k = false) ->
  parseKeys d k v = Ok [(SStr k, v)].
Proof.
  intros Hne Hk Hdots Hdecode. unfold parseKeys, segments.
  assert ((if allowDots d then GoRegexp.dot_replace k else k) = k) as ->.
  { destruct Hdots as [->| Hdots]; [done|].
    destruct (allowDots d); [|done]. by apply dot_go_id. }
  rewrite bracket_find_None by done.
  cbn [wrapAll mbind result_bind]. unfold wrapSegment.
  destruct k as [|c0 k']; [done|].
  assert (c0 <> "["%char) as Hc0.
  { cbn [has_byte] in Hk. apply orb_false_iff in Hk as [Hc _].
    by apply bool_decide_eq_false in Hc. }
  rewrite (bool_decide_eq_false_2 (String c0 k' = "[]")) by congruence.
  rewrite (bool_decide_eq_false_2 (c0 = "["%char)) by done. cbn [andb].
  assert ((if decodeDotInKeys d then ReplaceAll (String c0 k') "%2E" "."
           else String c0 k') = String c0 k') as ->.
  { destruct Hdecode as [->| Hdecode]; [done|].
    destruct (decodeDotInKeys d); [|done]. by apply replace_go_id. }
  rewrite (bool_decide_eq_false_2 (String c0 k' = "")) by done.
  rewrite andb_false_r.
  rewrite (bool_decide_eq_false_2 (String c0 k' <> String c0 k')) by (by intros []).
  cbn [andb]. by destruct (GoStrconv.Atoi _).
Qed.

(** Fragments that are read as pairs of distinct, non-empty keys without
    [ and of strings decode to the mapping of these keys to these strings,
    in every visiting order. *)
Lemma Parse_fragments d (mark : bool) c p parts (pairs : list (string * string)) seed :
  d.(delimiter) = "&" ->
  Forall (fun p => has_byte "&" p = false) (String c p :: parts) ->
  (d.(parameterLimit) < 0
   \/ Z.of_nat (length (String c p :: parts)) <= d.(parameterLimit))%Z ->
  c <> "?"%char ->
  (mark = true -> d.(ignoreQueryPrefix) = true) ->
  Forall2 (fun part kv => parsePart d part = Ok (kv.1, VStr kv.2))
    (String c p :: parts) pairs ->
  NoDup pairs.*1 ->
  Forall (fun kv => parseKeys d kv.1 (VStr kv.2) = Ok [(SStr kv.1, VStr kv.2)]) pairs ->
  exists ret,
    Parse d (if mark then "?" +:+ Join (String c p :: parts) "&"
             else Join (String c p :: parts) "&") seed = Ok ret /\
    ret ≡ₚ (fun kv => (SStr kv.1, VStr kv.2)) <$> pairs.
Proof.
  intros Hd Hamp Hn Hc Hmark Hparts Hnd Hkeys.
  apply (order_facts.Parse_distinct_roots_aux d _ seed
           ((fun kv => (kv.1, VStr kv.2)) <$> pairs)
           ((fun kv => (SStr kv.1, VStr kv.2)) <$> pairs)).
  - destruct mark; [done|]. destruct (Join_head c p parts) as [rest ->]. done.
  - unfold parseValues. rewrite fragments_Join by done. cbn [mbind result_bind].
    apply (parseParts_fresh d _ _ []).
    + by apply Forall2_fmap_r.
    + assert (NoDup ((fun kv : string * string => (kv.1, VStr kv.2)) <$> pairs).*1)
        as Hnd'; [by rewrite <- list_fmap_compose | exact Hnd'].
  - apply Forall2_fmap, Forall_Forall2_diag.
    eapply list.Forall_impl; [exact Hkeys|]. by intros [k v].
  - unfold keys.
    assert (((fun kv : string * string => (SStr kv.1, VStr kv.2)) <$> pairs).*1
            = SStr <$> pairs.*1) as ->.
    { by rewrite <- !list_fmap_compose. }
    apply NoDup_fmap_2; [|done]. by intros k k' [= ->].
  - apply Forall2_fmap, Forall_Forall2_diag, list.Forall_forall. by intros [k v] _.
Qed.

(** A query of distinct, non-empty keys and values made of letters and
    digits, [k1=v1&...&kn=vn] with [n] within the parameter limit, decodes
    to the mapping of [ki] to [vi]: no option other than the delimiter and
    the parameter limit has a say, and neither has the visiting order. *)
Theorem Parse_flat d (pairs : list (string * string)) seed :
  d.(delimiter) = "&" ->
  (d.(parameterLimit) < 0 \/ Z.of_nat (length pairs) <= d.(parameterLimit))%Z ->
  pairs <> [] ->
  Forall (fun kv => kv.1 <> "" /\ plain kv.1 = true /\ plain kv.2 = true) pairs ->
  NoDup pairs.*1 ->
  exists ret,
    Parse d (Join (flat_pair <$> pairs) "&") seed = Ok ret /\
    ret ≡ₚ (fun kv => (SStr kv.1, VStr kv.2)) <$> pairs.
Proof.
  intros Hd Hn Hne Hall Hnd.
  destruct pairs as [|[k v] rest] eqn:Hpairs; [done|]. rewrite <- Hpairs in *.
  assert (exists c k', k = String c k' /\ c <> "?"%char) as (c & k' & -> & Hc).
  { subst pairs. apply Forall_cons_1 in Hall as [(Hk & Hp & _) _].
    cbn [fst] in Hk, Hp. destruct k as [|c k']; [done|]. exists c, k'.
    split; [done|]. cbn [plain] in Hp. apply andb_true_iff in Hp as [Hp _].
    by intros ->. }
  assert (flat_pair <$> pairs
          = String c (k' +:+ "=" +:+ v) :: (flat_pair <$> rest)) as Hparts.
  { by subst pairs. }
  rewrite Hparts.
  apply (Parse_fragments d false c _ _ pairs seed); try done.
  - rewrite <- Hparts. apply Forall_fmap. eapply list.Forall_impl; [exact Hall|].
    intros [k0 v0] (_ & Hk0 & Hv0).
    apply has_byte_pair; [done|by apply has_byte_plain..].
  - rewrite <- Hparts. by rewrite length_fmap.
  - rewrite <- Hparts. apply Forall2_fmap_l, Forall_Forall2_diag.
    eapply list.Forall_impl; [exact Hall|].
    intros [k0 v0] (_ & Hk0 & Hv0). by apply parsePart_flat.
  - eapply list.Forall_impl; [exact Hall|].
    intros [k0 v0] (Hne0 & Hk0 & _). cbn [fst snd] in *.
    apply parseKeys_unbracketed; [done|auto using has_byte_plain..].
Qed.

Lemma Parse_flat_witness :
  exists ret,
    Parse defaultDecoder "page=2&sort=name&q=go" [2%nat; 0%nat] = Ok ret /\
    ret ≡ₚ [(SStr "page", VStr "2"); (SStr "sort", VStr "name"); (SStr "q", VStr "go")].
Proof.
  apply (Parse_flat defaultDecoder [("page", "2"); ("sort", "name"); ("q", "go")]
           [2%nat; 0%nat]).
  - reflexivity.
  - right. cbn. lia.
  - discriminate.
  - repeat constructor. all: discriminate.
  - apply (bool_decide_unpack _). vm_compute. exact I.
Defined.

End flat_facts.

(** ** From the encoder to the decoder and back *)

Module stringify_facts.
Import GoString GoUrl goqs spec flat_facts.

(** The encoder on cases of its tests and of the README. *)
Example Stringify_space :
  encoder.Stringify encoder.defaultEncoder [("a", Some "b c")] [] = "a=b%20c".
Proof. vm_compute. reflexivity. Qed.

Example Stringify_space_RFC1738 :
  encoder.Stringify (encoder.WithFormat "RFC1738" encoder.defaultEncoder)
    [("a", Some "b c")] [] = "a=b+c".
Proof. vm_compute. reflexivity. Qed.

Example Stringify_ampersand :
  encoder.Stringify encoder.defaultEncoder [("a", Some "b&c")] [] = "a=b%26c".
Proof. vm_compute. reflexivity. Qed.

Example Stringify_sorted :
  encoder.Stringify (encoder.WithSort true encoder.defaultEncoder)
    [("c", Some "3"); ("a", Some "1"); ("b", Some "2")] [1%nat; 1%nat]
  = "a=1&b=2&c=3".
Proof. vm_compute. reflexivity. Qed.

Example Stringify_nil :
  encoder.Stringify encoder.defaultEncoder [("a", None)] [] = "a=".
Proof. vm_compute. reflexivity. Qed.

Example Stringify_nil_strict :
  encoder.Stringify (encoder.WithStrictNullHandlingEncode true encoder.defaultEncoder)
    [("a", None)] [] = "a".
Proof. vm_compute. reflexivity. Qed.

Example Stringify_skipNulls :
  encoder.Stringify (encoder.WithSkipNulls true encoder.defaultEncoder)
    [("a", Some "b"); ("c", None)] [] = "a=b".
Proof. vm_compute. reflexivity. Qed.

Example Stringify_prefix :
  encoder.Stringify (encoder.WithAddQueryPrefix true encoder.defaultEncoder)
    [("a", Some "b")] [] = "?a=b".
Proof. vm_compute. reflexivity. Qed.

Example Stringify_filter :
  encoder.Stringify (encoder.WithFilter ["a"; "c"] encoder.defaultEncoder)
    [("a", Some "1"); ("b", Some "2"); ("c", Some "3")] [] = "a=1&c=3".
Proof. vm_compute. reflexivity. Qed.

Example Stringify_not_encoded :
  encoder.Stringify (encoder.WithEncode false encoder.defaultEncoder)
    [("a", Some "b c")] [] = "a=b c".
Proof. vm_compute. reflexivity. Qed.

Lemma upperhex_unreserved n : shouldEscape (upperhex n) = false.
Proof. do 16 (destruct n as [|n]; [done|]). done. Qed.

Lemma has_byte_one c0 c : c <> c0 -> has_byte c0 (String c "") = false.
Proof. intros Hne. cbn [has_byte]. by rewrite bool_decide_eq_false_2. Qed.

Lemma has_byte_escapeByte c0 c :
  shouldEscape c0 = true -> c0 <> "%"%char -> c0 <> "+"%char ->
  has_byte c0 (escapeByte c) = false.
Proof.
  intros Hc0 Hpercent Hplus. unfold escapeByte.
  destruct (shouldEscape c) eqn:Hc.
  - destruct (decide (c = " "%char)); [by apply has_byte_one|].
    cbn [has_byte].
    rewrite !bool_decide_eq_false_2; [done| | |by apply not_eq_sym].
    + intros <-. by rewrite upperhex_unreserved in Hc0.
    + intros <-. by rewrite upperhex_unreserved in Hc0.
  - apply has_byte_one. congruence.
Qed.

Lemma has_byte_QueryEscape c0 s :
  shouldEscape c0 = true -> c0 <> "%"%char -> c0 <> "+"%char ->
  has_byte c0 (QueryEscape s) = false.
Proof.
  intros Hc0 Hpercent Hplus. induction s as [|c s IH]; [done|].
  cbn [QueryEscape]. by rewrite has_byte_app, has_byte_escapeByte, IH.
Qed.

Lemma has_byte_plus_to c0 new s :
  has_byte c0 new = false -> has_byte c0 s = false ->
  has_byte c0 (plus_to new s) = false.
Proof.
  intros Hnew. induction s as [|c s IH]; [done|]. cbn [has_byte plus_to].
  intros [Hc Hs]%orb_false_iff.
  destruct (decide (c = "+"%char)).
  - by rewrite has_byte_app, Hnew, (IH Hs).
  - cbn [has_byte]. by rewrite Hc, (IH Hs).
Qed.

(** What urlEncode writes holds no byte that it escapes, apart from % and
    from the + of a space. *)
Lemma has_byte_urlEncode e c0 s :
  shouldEscape c0 = true -> c0 <> "%"%char -> c0 <> "+"%char ->
  has_byte c0 (encoder.urlEncode e s) = false.
Proof.
  intros Hc0 Hpercent Hplus. unfold encoder.urlEncode.
  destruct (bool_decide (encoder.format e = "RFC1738")).
  - by apply has_byte_QueryEscape.
  - rewrite escape_facts.ReplaceAll_plus.
    apply has_byte_plus_to; [|by apply has_byte_QueryEscape].
    cbn [has_byte]. rewrite !bool_decide_eq_false_2; [done|..].
    + by intros <-.
    + by intros <-.
    + by apply not_eq_sym.
Qed.

Lemma has_byte_escaped_pair e c0 kv :
  shouldEscape c0 = true -> c0 <> "%"%char -> c0 <> "+"%char -> c0 <> "="%char ->
  has_byte c0 (escaped_pair e kv) = false.
Proof.
  intros. unfold escaped_pair. apply has_byte_pair; [done|by apply has_byte_urlEncode..].
Qed.

(** The decoder reads a fragment of the encoder as the key and the string
    it was written for. *)
Lemma parsePart_escaped d e kv :
  comma d = false -> parsePart d (escaped_pair e kv) = Ok (kv.1, VStr kv.2).
Proof.
  intros Hcomma.
  pose proof (has_byte_escaped_pair e "]" kv) as Hclose.
  pose proof (has_byte_escaped_pair e "[" kv) as Hopen.
  unfold escaped_pair in *. rewrite parsePart_pair.
  - rewrite !escape_facts.decodeURI_urlEncode_aux. by rewrite Hcomma.
  - by apply has_byte_urlEncode.
  - by apply Hclose.
  - by apply Hopen.
Qed.

Lemma escaped_pair_head e k v :
  k <> "" ->
  exists c p, escaped_pair e (k, v) = String c p /\ c <> "?"%char.
Proof.
  intros Hne. unfold escaped_pair. cbn [fst snd].
  pose proof (escape_facts.decodeURI_urlEncode_aux e k) as Hround.
  assert (has_byte "?" (encoder.urlEncode e k) = false) as Hmark
    by (by apply has_byte_urlEncode).
  destruct (encoder.urlEncode e k) as [|c p].
  - by rewrite <- Hround in Hne.
  - exists c, (p +:+ "=" +:+ encoder.urlEncode e v). split; [done|].
    cbn [has_byte] in Hmark. intros ->.
    by rewrite bool_decide_eq_true_2 in Hmark by done.
Qed.

Lemma map_get_Some_values k (obj : list (string * string)) :
  map_get k ((fun kv => (kv.1, Some kv.2)) <$> obj) = Some <$> map_get k obj.
Proof.
  induction obj as [|[k0 v0] obj IH]; [done|]. csimpl.
  by destruct (decide (k = k0)).
Qed.

(** For a map of strings the loop of Stringify writes one escaped
    fragment per key, in the order of the keys. *)
Lemma stringifyKeys_escaped e (obj : list (string * string)) ks :
  plain_encoder e ->
  Forall (fun k => k ∈ obj.*1) ks ->
  encoder.stringifyKeys e ((fun kv => (kv.1, Some kv.2)) <$> obj) ks =
    (fun k => escaped_pair e (k, default "" (map_get k obj))) <$> ks.
Proof.
  intros (Hencode & Hvalues & Hdots & Hallow & _) Hall.
  induction Hall as [|k ks Hk _ IH]; [done|].
  cbn [encoder.stringifyKeys]. rewrite map_get_Some_values, IH.
  destruct (map_get k obj) as [v|] eqn:Hget.
  - csimpl. rewrite andb_false_r, Hget.
    unfold escaped_pair, encoder.buildKey, encoder.encodeKey, encoder.encodeValue.
    rewrite Hencode, Hvalues, Hdots, Hallow. done.
  - by apply map_get_None in Hget.
Qed.

Lemma lookup_all (obj : list (string * string)) :
  NoDup obj.*1 ->
  (fun k => (k, default "" (map_get k obj))) <$> obj.*1 = obj.
Proof.
  induction obj as [|[k v] obj IH]; [done|]. rewrite fmap_cons. cbn [fst].
  intros [Hk Hnd]%list.NoDup_cons. rewrite fmap_cons. f_equal.
  - cbn [map_get]. by destruct (decide (k = k)).
  - rewrite <- (IH Hnd) at 2. apply Forall_fmap_ext_1, list.Forall_forall.
    intros k' Hk'. cbn [map_get]. destruct (decide (k' = k)) as [->|]; done.
Qed.

(** What Stringify writes for a map of strings, Parse reads back: with an
    encoder that escapes keys and values and a decoder that gives commas
    and dots no special role, a map of strings under non-empty keys
    without [ is decoded to itself, in whatever order either side visits
    its map. *)
Theorem Parse_Stringify e d (obj : list (string * string)) seed seed' :
  plain_encoder e ->
  plain_decoder d ->
  (encoder.addQueryPrefix e = true -> ignoreQueryPrefix d = true) ->
  (parameterLimit d < 0 \/ Z.of_nat (length obj) <= parameterLimit d)%Z ->
  NoDup obj.*1 ->
  Forall (fun kv => kv.1 <> "" /\ has_byte "[" kv.1 = false) obj ->
  exists ret,
    Parse d (encoder.Stringify e ((fun kv => (kv.1, Some kv.2)) <$> obj) seed) seed'
      = Ok ret /\
    ret ≡ₚ (fun kv => (SStr kv.1, VStr kv.2)) <$> obj.
Proof.
  intros He (Hdelim & Hcomma & Hdots & Hdecode) Hmark Hn Hnd Hkeys.
  pose proof He as (_ & _ & _ & _ & Hsentinel & Hfilter & Hsep).
  unfold encoder.Stringify. rewrite length_fmap.
  destruct (decide (obj = [])) as [->|Hne]; [by exists []|].
  rewrite bool_decide_eq_false_2 by (by destruct obj).
  rewrite Hfilter, Hsentinel, Hsep. cbn [app].
  assert (keys ((fun kv : string * string => (kv.1, Some kv.2)) <$> obj) = obj.*1)
    as ->.
  { unfold keys. by rewrite <- list_fmap_compose. }
  set (ks := if encoder.sort e
             then encoder.sort_Strings (range_order seed obj.*1)
             else range_order seed obj.*1).
  assert (ks ≡ₚ obj.*1) as Hks.
  { unfold ks, encoder.sort_Strings. destruct (encoder.sort e).
    - rewrite merge_sort_Permutation. apply range_order_perm.
    - apply range_order_perm. }
  rewrite (stringifyKeys_escaped e obj ks He)
    by (apply list.Forall_forall; intros k Hk; by rewrite <- Hks).
  set (pairs := (fun k => (k, default "" (map_get k obj))) <$> ks).
  assert (pairs ≡ₚ obj) as Hpairs.
  { unfold pairs. rewrite Hks. by rewrite lookup_all. }
  assert ((fun k => escaped_pair e (k, default "" (map_get k obj))) <$> ks
          = escaped_pair e <$> pairs) as ->.
  { unfold pairs. by rewrite <- list_fmap_compose. }
  assert (Forall (fun kv => kv.1 <> "" /\ has_byte "[" kv.1 = false) pairs)
    as Hkeys' by (by rewrite Hpairs).
  destruct pairs as [|[k v] rest] eqn:Hrest.
  { by apply Permutation_nil in Hpairs. }
  rewrite <- Hrest in *.
  assert (k <> "") as Hk.
  { rewrite Hrest in Hkeys'. by apply Forall_cons_1 in Hkeys' as [[? _] _]. }
  destruct (escaped_pair_head e k v Hk) as (c & p & Hhead & Hc).
  assert (escaped_pair e <$> pairs = String c p :: (escaped_pair e <$> rest))
    as Hparts.
  { rewrite Hrest, fmap_cons. by rewrite Hhead. }
  rewrite Hparts. cbn [length]. rewrite bool_decide_eq_false_2 by done.
  destruct (Join_head c p (escaped_pair e <$> rest)) as [tail Htail].
  rewrite (bool_decide_eq_false_2 (Join _ "&" = ""))
    by (rewrite Htail; done).
  cbn [negb]. rewrite andb_true_r.
  destruct (Parse_fragments d (encoder.addQueryPrefix e) c p
              (escaped_pair e <$> rest) pairs seed') as (ret & Hret & Hperm);
    try done.
  - rewrite <- Hparts. apply Forall_fmap, list.Forall_forall. intros kv _.
    by apply has_byte_escaped_pair.
  - rewrite <- Hparts, length_fmap. by rewrite Hpairs.
  - rewrite <- Hparts. apply Forall2_fmap_l, Forall_Forall2_diag, list.Forall_forall.
    intros kv _. by apply parsePart_escaped.
  - by rewrite Hpairs.
  - eapply list.Forall_impl; [exact Hkeys'|].
    intros [k0 v0] [Hk0 Hopen]. cbn [fst snd] in *.
    apply parseKeys_unbracketed; auto.
  - exists ret. split; [done|]. by rewrite Hperm, Hpairs.
Qed.

Lemma Parse_Stringify_witness :
  exists ret,
    Parse defaultDecoder
      (encoder.Stringify encoder.defaultEncoder
         ((fun kv : string * string => (kv.1, Some kv.2))
            <$> [("name", "a b&c=d"); ("q", "x,y[0]")]) [1%nat])
      [1%nat] = Ok ret /\
    ret ≡ₚ (fun kv : string * string => (SStr kv.1, VStr kv.2))
             <$> [("name", "a b&c=d"); ("q", "x,y[0]")].
Proof.
  apply (Parse_Stringify encoder.defaultEncoder defaultDecoder
           [("name", "a b&c=d"); ("q", "x,y[0]")] [1%nat] [1%nat]).
  - repeat split.
  - repeat split.
  - discriminate.
  - right. cbn. lia.
  - apply (bool_decide_unpack _). vm_compute. exact I.
  - repeat constructor. all: discriminate.
Defined.

Lemma compare_trans (s1 s2 s3 : string) :
  String.compare s1 s2 <> Gt -> String.compare s2 s3 <> Gt ->
  String.compare s1 s3 <> Gt.
Proof.
  revert s2 s3. induction s1 as [|c1 s1 IH]; intros [|c2 s2] [|c3 s3]; cbn; try done.
  unfold Ascii.compare.
  destruct (N.compare_spec (N_of_ascii c1) (N_of_ascii c2)) as [H12|H12|H12];
    destruct (N.compare_spec (N_of_ascii c2) (N_of_ascii c3)) as [H23|H23|H23];
    destruct (N.compare_spec (N_of_ascii c1) (N_of_ascii c3)) as [H13|H13|H13];
    try done; try lia.
  apply IH.
Qed.

Lemma leb_trans (s1 s2 s3 : string) :
  String.leb s1 s2 -> String.leb s2 s3 -> String.leb s1 s3.
Proof.
  unfold String.leb. intros H12 H23.
  pose proof (compare_trans s1 s2 s3) as Htrans.
  destruct (String.compare s1 s2), (String.compare s2 s3),
    (String.compare s1 s3); try done; by destruct Htrans.
Qed.

(** [sort.Strings] gives one result for all the orders of its input. *)
Lemma sort_Strings_perm (l l' : list string) :
  l ≡ₚ l' -> encoder.sort_Strings l = encoder.sort_Strings l'.
Proof.
  intros Hperm. unfold encoder.sort_Strings.
  set (R := fun a b : string => Is_true (String.leb a b)).
  assert (Transitive R) by (intros s1 s2 s3; apply leb_trans).
  assert (AntiSymm eq R).
  { intros s1 s2 H12 H21. apply String.leb_antisym; by apply Is_true_eq_true. }
  assert (Total R).
  { intros s1 s2. destruct (String.leb_total s1 s2) as [Hle|Hle];
      [left|right]; by apply Is_true_eq_left. }
  apply (Sorted_unique R).
  - by apply Sorted_merge_sort.
  - by apply Sorted_merge_sort.
  - by rewrite !merge_sort_Permutation.
Qed.

(** With sorted keys the text Stringify writes for a map of strings and
    nils does not depend on the order in which the map is visited. *)
Theorem Stringify_sorted_any_order e obj seed seed' :
  encoder.sort e = true ->
  encoder.Stringify e obj seed = encoder.Stringify e obj seed'.
Proof.
  intros Hsort. unfold encoder.Stringify. rewrite Hsort.
  by rewrite (sort_Strings_perm (range_order seed _) (range_order seed' _))
    by (by rewrite !range_order_perm).
Qed.

Lemma Stringify_sorted_any_order_witness :
  encoder.Stringify (encoder.WithSort true encoder.defaultEncoder)
    [("c", Some "3"); ("a", None); ("b", Some "2")] [2%nat; 0%nat]
  = encoder.Stringify (encoder.WithSort true encoder.defaultEncoder)
      [("c", Some "3"); ("a", None); ("b", Some "2")] [1%nat; 1%nat].
Proof.
  apply (Stringify_sorted_any_order (encoder.WithSort true encoder.defaultEncoder)).
  reflexivity.
Defined.

(** What urlEncode writes holds none of the bytes that QueryEscape
    escapes, apart from the % of an escape and the + of a space: no
    delimiter, no =, no bracket, no ?, no comma. *)
Theorem urlEncode_no_reserved e c0 s :
  shouldEscape c0 = true -> c0 <> "%"%char -> c0 <> "+"%char ->
  has_byte c0 (encoder.urlEncode e s) = false.
Proof. apply has_byte_urlEncode. Qed.

Lemma urlEncode_no_reserved_witness :
  has_byte "&" (encoder.urlEncode encoder.defaultEncoder "a&b c=d") = false.
Proof.
  apply (urlEncode_no_reserved encoder.defaultEncoder "&" "a&b c=d").
  - reflexivity.
  - discriminate.
  - discriminate.
Defined.

End stringify_facts.

(** ** Keys that make Parse panic *)

Module panic_facts.
Import GoString goqs spec.

Lemma wrapAll_empty_parent d rest v : wrapAll d ("" :: rest) v = Panic.
Proof. cbn [wrapAll]. by destruct (wrapAll d rest v). Qed.

Lemma parseKeys_empty_parent d key v : parent d key = "" -> parseKeys d key v = Panic.
Proof.
  unfold parent, parseKeys.
  destruct (parseKeys_facts.segments_cons d key) as (root & rest & ->).
  cbn [hd]. intros ->. by rewrite wrapAll_empty_parent.
Qed.

Lemma mergePairs_panics d pairs t :
  Exists (fun kv => parseKeys d kv.1 kv.2 = Panic) pairs ->
  mergePairs d pairs t = Panic.
Proof.
  intros Hex. revert t.
  induction Hex as [[k v] pairs Hkv|[k v] pairs _ IH]; intros t; cbn [mergePairs].
  - cbn [fst snd] in Hkv. by rewrite Hkv.
  - destruct (parseKeys d k v) as [newObj|]; [|done]. cbn [mbind result_bind].
    destruct (merge t (VMap newObj)) as [t'|]; [|done]. apply IH.
Qed.

(** Parse panics on every non-empty input one of whose flat keys has an
    empty parent segment, such as the empty key or a key that starts with
    a bracket group: the byte test root[0] of parseKeys is out of range,
    whatever the options and the visiting order. *)
Theorem Parse_panics_on_empty_parent d input seed tempObj :
  input <> "" ->
  parseValues d input = Ok tempObj ->
  Exists (fun kv => parent d kv.1 = "") tempObj ->
  Parse d input seed = Panic.
Proof.
  intros Hne Hv Hex. unfold Parse.
  rewrite bool_decide_eq_false_2 by (by destruct input).
  rewrite Hv. cbn [mbind result_bind].
  rewrite mergePairs_panics; [done|].
  apply Exists_exists in Hex as ([k v] & Hin & Hparent).
  apply Exists_exists. exists (k, v). split.
  - by rewrite range_order_perm.
  - by apply parseKeys_empty_parent.
Qed.

Lemma Parse_panics_on_empty_parent_witness :
  Parse defaultDecoder "c=d&[a]=b" [1%nat] = Panic.
Proof.
  apply (Parse_panics_on_empty_parent defaultDecoder "c=d&[a]=b" [1%nat]
           [("c", VStr "d"); ("[a]", VStr "b")]).
  - discriminate.
  - vm_compute. reflexivity.
  - right. left. vm_compute. reflexivity.
Defined.

End panic_facts.
